(** * Knowledge-base ingestion and retrieval core (neuralarc-ai/he2)

    A shallow embedding of the algorithmic core of
    [backend/knowledge_base]: the text normalizer, the word-based
    chunker and the entry point of [document_processor.py]; the
    character-window chunker, the batch embedder, the ingestion into
    the vector store, the similarity search, the relevance gate and
    the statistics of [vector_service.py]; the storing of a document,
    the retrieval of its chunks, the keyword search and the deletion
    by filename of [document_storage.py]; and the MIME gate of the
    upload endpoint of [api.py].

    Python values are modelled as the code has them: [int] is [Z],
    [float] is the binary64 [float] of the kernel, [str] is a sequence
    of code points, a [dict] row of the record store is a finite map
    from column names to values. *)

From Stdlib Require Import ZArith NArith Lia Floats Ascii String Sorted.
From stdpp Require Import gmap strings list fin_maps pretty.

Local Open Scope Z_scope.

(** ** Python strings *)

Module Py.

(** A [str] is a sequence of Unicode code points. *)
Definition char : Type := N.
Definition text : Type := list char.

Definition SP : char := 32%N.
Definition NL : char := 10%N.

(** [len(x)] is a Python [int]. *)
Definition len {A : Type} (l : list A) : Z := Z.of_nat (length l).

(** The code points on which [str.isspace], [str.split()] and
    [str.strip()] agree that they are whitespace. *)
Definition isspace (c : char) : bool :=
  ((9 <=? c) && (c <=? 13) || (28 <=? c) && (c <=? 32) || (c =? 133)
   || (c =? 160) || (c =? 5760) || (8192 <=? c) && (c <=? 8202)
   || (c =? 8232) || (c =? 8233) || (c =? 8239) || (c =? 8287)
   || (c =? 12288))%N.

(** A string literal of the source, code point by code point. *)
Fixpoint lit (s : string) : text :=
  match s with
  | EmptyString => []
  | String a s' => N_of_ascii a :: lit s'
  end.

(** Whether [s] begins with a non-whitespace code point. *)
Definition in_word (s : text) : bool :=
  match s with
  | [] => false
  | c :: _ => negb (isspace c)
  end.

(** [s.split()]: the maximal runs of non-whitespace code points. *)
Fixpoint split (s : text) : list text :=
  match s with
  | [] => []
  | c :: s' =>
      if isspace c then split s'
      else if in_word s' then
        match split s' with
        | w :: ws => (c :: w) :: ws
        | [] => [[c]]
        end
      else [c] :: split s'
  end.

(** [s.split(sep)] for a one-character separator. *)
Fixpoint split_on (sep : char) (s : text) : list text :=
  match s with
  | [] => [[]]
  | c :: s' =>
      if (c =? sep)%N then [] :: split_on sep s'
      else match split_on sep s' with
           | l :: ls => (c :: l) :: ls
           | [] => [[c]]
           end
  end.

(** [sep.join(parts)]. *)
Fixpoint join (sep : text) (parts : list text) : text :=
  match parts with
  | [] => []
  | [p] => p
  | p :: ps => p ++ sep ++ join sep ps
  end.

Fixpoint lstrip (s : text) : text :=
  match s with
  | [] => []
  | c :: s' => if isspace c then lstrip s' else s
  end.

(** [s.strip()]. *)
Definition strip (s : text) : text := reverse (lstrip (reverse (lstrip s))).

Fixpoint startswith (p s : text) : bool :=
  match p, s with
  | [], _ => true
  | _ :: _, [] => false
  | a :: p', b :: s' => (a =? b)%N && startswith p' s'
  end.

(** [p in s] for strings. *)
Fixpoint contains (p s : text) : bool :=
  startswith p s || match s with [] => false | _ :: s' => contains p s' end.

(** [s.replace(old, new)] for a non-empty [old]: the occurrences are
    found from the left and do not overlap; [skip] counts the code
    points of a matched occurrence that are still to be passed. *)
Fixpoint replace_from (old new : text) (skip : nat) (s : text) : text :=
  match s with
  | [] => []
  | c :: s' =>
      match skip with
      | S k => replace_from old new k s'
      | O =>
          if startswith old s
          then new ++ replace_from old new (length old - 1) s'
          else c :: replace_from old new 0 s'
      end
  end.

Definition replace (old new s : text) : text := replace_from old new 0 s.

(** [l[-n:]] for [n > 0]: the last [n] items, all of [l] when it is
    shorter. *)
Definition last_items {A : Type} (n : Z) (l : list A) : list A :=
  drop (length l - Z.to_nat n) l.

(** How a slice bound is read: a negative bound counts from the end,
    and every bound is clipped to [0 .. len(l)]. *)
Definition clip (n i : Z) : Z :=
  if i <? 0 then Z.max 0 (i + n) else Z.min i n.

(** [l[a:b]]. *)
Definition slice {A : Type} (a b : Z) (l : list A) : list A :=
  let a' := clip (len l) a in
  let b' := clip (len l) b in
  take (Z.to_nat (b' - a')) (drop (Z.to_nat a') l).

(** [l[:m]]. *)
Definition slice_to {A : Type} (m : Z) (l : list A) : list A :=
  take (Z.to_nat (clip (len l) m)) l.

(** [l[i]]: a negative index counts from the end; [None] is the
    [IndexError] of an index out of range. *)
Definition item {A : Type} (l : list A) (i : Z) : option A :=
  if (0 <=? i) && (i <? len l) then l !! Z.to_nat i
  else if (- len l <=? i) && (i <? 0) then l !! Z.to_nat (len l + i)
  else None.

End Py.

(** ** document_processor.py *)

Module DocumentProcessor.
Import Py.

(** The [while '\n\n\n' in cleaned_text] loop of [_clean_text]; every
    round shortens the text, so [fuel] bounds the rounds. *)
Fixpoint collapse_newlines (fuel : nat) (s : text) : option text :=
  if negb (contains [NL; NL; NL] s) then Some s
  else match fuel with
       | O => None
       | S f => collapse_newlines f (replace [NL; NL; NL] [NL; NL] s)
       end.

(** The body of the [for line in lines] loop of [_clean_text]. *)
Definition clean_lines (lines : list text) : list text :=
  flat_map
    (fun line =>
       let cleaned_line := join [SP] (split line) in
       match strip cleaned_line with
       | [] => []
       | _ :: _ => [cleaned_line]
       end)
    lines.

(** [DocumentProcessor._clean_text]; [None] only if the newline loop
    were to exceed its bound. *)
Definition _clean_text (t : text) : option text :=
  match t with
  | [] => Some []
  | _ :: _ =>
      let lines := split_on NL t in
      let cleaned_lines := clean_lines lines in
      let cleaned_text := join [NL] cleaned_lines in
      match collapse_newlines (length cleaned_text) cleaned_text with
      | Some cleaned => Some (strip cleaned)
      | None => None
      end
  end.

(** One chunk dictionary of [_chunk_text]. *)
Record chunk : Type := Chunk {
  chunk_text_of : text;
  size : Z;
  word_count : Z;
  start_word : Z;
  end_word : Z
}.

(** The dictionary appended when the loop index is [i]; the final
    chunk is the one for [i = len(words)]. *)
Definition make_chunk (current_chunk : list text) (i : Z) : chunk :=
  let chunk_text := join [SP] current_chunk in
  {| chunk_text_of := chunk_text;
     size := len chunk_text;
     word_count := len current_chunk;
     start_word := i - len current_chunk;
     end_word := i - 1 |}.

(** The loop state of [_chunk_text]. *)
Record chunker : Type := Chunker {
  chunks : list chunk;
  current_chunk : list text;
  current_size : Z
}.

Definition is_nil {A : Type} (l : list A) : bool :=
  match l with [] => true | _ :: _ => false end.

Definition words_size (ws : list text) : Z :=
  foldr (fun w acc => (len w + 1) + acc) 0 ws.

(** One round of [for i, word in enumerate(words)]. *)
Definition chunk_step (chunk_size overlap : Z) (st : chunker) (i : Z)
    (word : text) : chunker :=
  let word_size := len word + 1 in
  let st1 :=
    if (current_size st + word_size >? chunk_size)
       && negb (is_nil (current_chunk st))
    then
      let overlap_words :=
        if overlap >? 0 then last_items overlap (current_chunk st) else [] in
      {| chunks := chunks st ++ [make_chunk (current_chunk st) i];
         current_chunk := overlap_words;
         current_size := words_size overlap_words |}
    else st in
  {| chunks := chunks st1;
     current_chunk := current_chunk st1 ++ [word];
     current_size := current_size st1 + word_size |}.

Fixpoint chunk_loop (chunk_size overlap : Z) (st : chunker) (i : Z)
    (words : list text) : chunker :=
  match words with
  | [] => st
  | word :: rest =>
      chunk_loop chunk_size overlap
        (chunk_step chunk_size overlap st i word) (i + 1) rest
  end.

(** [DocumentProcessor._chunk_text]. *)
Definition _chunk_text (t : text) (chunk_size overlap : Z) : list chunk :=
  match t with
  | [] => []
  | _ :: _ =>
      let words := split t in
      let st := chunk_loop chunk_size overlap (Chunker [] [] 0) 0 words in
      if is_nil (current_chunk st) then chunks st
      else chunks st ++ [make_chunk (current_chunk st) (len words)]
  end.

(** The word sequence of an emitted chunk, read back from its text. *)
Definition chunk_words (c : chunk) : list text := split (chunk_text_of c).

(** The number of leading words a chunk shares with its predecessor,
    from the recorded word offsets. *)
Definition overlap_prefix (prev c : chunk) : nat :=
  Z.to_nat (end_word prev + 1 - start_word c).

(** Reconstruction: keep the first chunk whole, drop the overlapping
    word prefix of every later chunk, concatenate. *)
Fixpoint reconstruct_after (prev : chunk) (cs : list chunk) : list text :=
  match cs with
  | [] => []
  | c :: cs' =>
      drop (overlap_prefix prev c) (chunk_words c) ++ reconstruct_after c cs'
  end.

Definition reconstruct (cs : list chunk) : list text :=
  match cs with
  | [] => []
  | c :: cs' => chunk_words c ++ reconstruct_after c cs'
  end.

(** The keys of [self.supported_formats], in the order of the source. *)
Definition supported_formats : list string :=
  [ "application/pdf";
    "text/csv";
    "application/vnd.openxmlformats-officedocument.wordprocessingml.document";
    "text/plain";
    "text/markdown";
    "application/json";
    "text/html";
    "application/vnd.ms-excel";
    "application/vnd.openxmlformats-officedocument.spreadsheetml.sheet" ]%string.

(** [DocumentProcessor.is_format_supported]. *)
Definition is_format_supported (mime_type : string) : bool :=
  bool_decide (mime_type ∈ supported_formats).

(** The result dictionary of [process_document], without the file
    metadata: the failure for a document without text, or the texts,
    the chunks, [total_chunks], [total_tokens] and the
    [processing_info]. *)
Inductive processed : Type :=
  | NoTextExtracted
  | Processed (raw_text cleaned_text : text) (chunks : list chunk)
      (total_chunks total_tokens : Z)
      (info_chunk_size info_overlap original_size cleaned_size : Z).

Section ProcessDocument.

(** The extractors of the supported types and the fallback decoder,
    which turn the bytes of a file into text with libraries outside
    this repository; each of them returns a text for every input. *)
Variable extractor : string -> list Byte.byte -> string -> text.
Variable fallback : list Byte.byte -> string -> text.

(** The choice of the extractor in [process_document]. *)
Definition extract_text (file_content : list Byte.byte)
    (mime_type filename : string) : text :=
  if bool_decide (mime_type ∈ supported_formats)
  then extractor mime_type file_content filename
  else fallback file_content filename.

(** [DocumentProcessor.process_document]; [None] only if the newline
    loop of the normalizer were to exceed its bound. *)
Definition process_document (file_content : list Byte.byte)
    (mime_type filename : string) (chunk_size overlap : Z)
    : option processed :=
  let raw_text := extract_text file_content mime_type filename in
  if is_nil raw_text || is_nil (strip raw_text) then Some NoTextExtracted
  else
    match _clean_text raw_text with
    | Some cleaned_text =>
        let chunks := _chunk_text cleaned_text chunk_size overlap in
        Some (Processed raw_text cleaned_text chunks (len chunks)
                (len cleaned_text / 4) chunk_size overlap
                (len raw_text) (len cleaned_text))
    | None => None
    end.

End ProcessDocument.

End DocumentProcessor.

(** ** vector_service.py *)

Module VectorService.
Import Py.

(** An embedding is a list of Python floats. *)
Definition embedding : Type := list float.

(** What a call of the service does: it returns, it raises, or the
    bound on the number of loop rounds was reached. *)
Inductive outcome (A : Type) : Type :=
  | Returned (a : A)
  | Raised
  | OutOfFuel.
Arguments Returned {A} a.
Arguments Raised {A}.
Arguments OutOfFuel {A}.

(** [VectorService._preprocess_text]. *)
Definition _preprocess_text (t : text) : text :=
  let t := join [SP] (split t) in
  let max_length := 512 in
  if len t >? max_length then slice_to max_length t else t.

(** [c in '.!?']. *)
Definition is_sentence_end (c : char) : bool :=
  ((c =? 46) || (c =? 33) || (c =? 63))%N.

Inductive scan : Type :=
  | Found (end_ : Z)
  | NotFound
  | IndexError.

(** [for i in range(end - 1, search_start, -1)], entered at [i] with
    [count] indices left. *)
Fixpoint find_sentence_end (content : text) (i : Z) (count : nat) : scan :=
  match count with
  | O => NotFound
  | S k =>
      match item content i with
      | None => IndexError
      | Some c =>
          if is_sentence_end c then Found (i + 1)
          else find_sentence_end content (i - 1) k
      end
  end.

Inductive round : Type :=
  | Continue (start : Z) (chunks : list text)
  | Break (chunks : list text)
  | RoundRaised.

(** The body of [while start < len(content)] in [chunk_document]. *)
Definition chunk_document_round (content : text) (chunk_size overlap : Z)
    (start : Z) (chunks : list text) : round :=
  let end_ := start + chunk_size in
  let snapped :=
    if end_ <? len content then
      let search_start := Z.max start (end_ - 100) in
      match find_sentence_end content (end_ - 1)
              (Z.to_nat (end_ - 1 - search_start)) with
      | Found e => Some e
      | NotFound => Some end_
      | IndexError => None
      end
    else Some end_ in
  match snapped with
  | None => RoundRaised
  | Some end_ =>
      let chunk := strip (slice start end_ content) in
      let chunks := match chunk with [] => chunks | _ :: _ => chunks ++ [chunk] end in
      let start := end_ - overlap in
      if start >=? len content then Break chunks else Continue start chunks
  end.

Fixpoint chunk_document_loop (fuel : nat) (content : text)
    (chunk_size overlap : Z) (start : Z) (chunks : list text)
    : outcome (list text) :=
  match fuel with
  | O => OutOfFuel
  | S f =>
      if start <? len content then
        match chunk_document_round content chunk_size overlap start chunks with
        | Continue start chunks =>
            chunk_document_loop f content chunk_size overlap start chunks
        | Break chunks => Returned chunks
        | RoundRaised => Raised
        end
      else Returned chunks
  end.

(** [VectorService.chunk_document]; [fuel] bounds the rounds of the
    [while] loop. *)
Definition chunk_document (fuel : nat) (content : text)
    (chunk_size overlap : Z) : outcome (list text) :=
  if len content <=? chunk_size then Returned [content]
  else chunk_document_loop fuel content chunk_size overlap 0 [].

(** One dictionary of [chunk_records] in [process_document_for_kb]. *)
Record chunk_record : Type := ChunkRecord {
  chunk_index : Z;
  chunk_text : text;
  chunk_tokens : Z;
  record_embedding : embedding
}.

(** [for i, (chunk, embedding) in enumerate(zip(chunks, embeddings))],
    entered at index [i]. *)
Fixpoint collect_records (i : Z) (chunks : list text)
    (embeddings : list (option embedding)) : list chunk_record :=
  match chunks, embeddings with
  | chunk :: chunks', emb :: embeddings' =>
      match emb with
      | Some e =>
          ChunkRecord i chunk (len (split chunk)) e
            :: collect_records (i + 1) chunks' embeddings'
      | None => collect_records (i + 1) chunks' embeddings'
      end
  | _, _ => []
  end.

Definition chunk_records (chunks : list text)
    (embeddings : list (option embedding)) : list chunk_record :=
  collect_records 0 chunks embeddings.

(** The result dictionary of [process_document_for_kb]. *)
Inductive kb_result : Type :=
  | Processed (records : list chunk_record) (chunks_created total_chunks : Z)
  | NotProcessed.

Section Embedder.

(** [self.model.encode] on a batch, the model being loaded: one vector
    per text, or [None] when the call raises. *)
Variable encode : list text -> option (list embedding).

(** [VectorService.generate_chunk_embeddings]. *)
Definition generate_chunk_embeddings (chunks : list text)
    : list (option embedding) :=
  let cleaned_chunks := map _preprocess_text chunks in
  match encode cleaned_chunks with
  | Some embeddings => map Some embeddings
  | None => repeat None (length chunks)
  end.

(** [VectorService.process_document_for_kb], the store accepting the
    insert: the records inserted with the counts of the result
    dictionary; an exception of the body is caught and gives the
    result with [success: False]. *)
Definition process_document_for_kb (fuel : nat) (content : text)
    : outcome kb_result :=
  match chunk_document fuel content 1000 200 with
  | Returned chunks =>
      let embeddings := generate_chunk_embeddings chunks in
      let records := chunk_records chunks embeddings in
      Returned (Processed records (len records) (len chunks))
  | Raised => Returned NotProcessed
  | OutOfFuel => OutOfFuel
  end.

End Embedder.

(** A row of [document_chunks] as the search reads it. *)
Record row : Type := Row {
  row_id : Z;
  row_embedding : option embedding
}.

(** A row after [chunk['similarity_score'] = similarity]. *)
Record scored : Type := Scored {
  scored_row : row;
  similarity_score : float
}.

(** [x >= y] on floats. *)
Definition geb (x y : float) : bool := PrimFloat.leb y x.

Section Retrieval.

(** [self._calculate_cosine_similarity]. *)
Variable similarity : embedding -> embedding -> float.

(** The loop that scores the rows and keeps those at or above the
    threshold. *)
Fixpoint relevant_chunks (query_embedding : embedding)
    (similarity_threshold : float) (data : list row) : list scored :=
  match data with
  | [] => []
  | chunk :: rest =>
      let tail := relevant_chunks query_embedding similarity_threshold rest in
      match row_embedding chunk with
      | Some ((_ :: _) as e) =>
          let s := similarity query_embedding e in
          if geb s similarity_threshold then Scored chunk s :: tail else tail
      | _ => tail
      end
  end.

(** [list.sort(key=similarity_score, reverse=True)]: a stable sort
    into descending order that compares keys with [<] only. *)
Fixpoint insert_desc (x : scored) (l : list scored) : list scored :=
  match l with
  | [] => [x]
  | y :: l' =>
      if PrimFloat.ltb (similarity_score x) (similarity_score y)
      then y :: insert_desc x l'
      else x :: y :: l'
  end.

Definition sort_desc (l : list scored) : list scored := foldr insert_desc [] l.

(** [VectorService.search_knowledge_base], given what
    [generate_embedding(query)] returned and the rows the store
    returned for the scope ([None] when the store raises). *)
Definition search_knowledge_base (query_embedding : option embedding)
    (data : option (list row)) (similarity_threshold : float)
    (max_results : Z) : list scored :=
  match query_embedding with
  | None | Some [] => []
  | Some q =>
      match data with
      | None | Some [] => []
      | Some rows =>
          slice_to max_results
            (sort_desc (relevant_chunks q similarity_threshold rows))
      end
  end.

(** [max(...)] over a non-empty sequence of floats. *)
Definition py_max (x : float) (l : list float) : float :=
  foldl (fun m y => if PrimFloat.ltb m y then y else m) x l.

(** [VectorService.is_query_relevant]. *)
Definition is_query_relevant (query_embedding : option embedding)
    (data : option (list row)) (relevance_threshold : float)
    : bool * float :=
  match search_knowledge_base query_embedding data relevance_threshold 1 with
  | [] => (false, 0%float)
  | c :: cs =>
      let max_similarity :=
        py_max (similarity_score c) (map similarity_score cs) in
      (geb max_similarity relevance_threshold, max_similarity)
  end.

End Retrieval.

(** [np.dot] and [np.linalg.norm] on vectors, summed from the left
    (numpy does not fix the order of the additions). *)
Definition dot (a b : embedding) : float :=
  foldl (fun acc xy => (acc + fst xy * snd xy)%float) 0%float (zip a b).

Definition norm (a : embedding) : float := PrimFloat.sqrt (dot a a).

(** [VectorService._calculate_cosine_similarity]; vectors of different
    lengths make [np.dot] raise, which the function turns into 0.0. *)
Definition _calculate_cosine_similarity (vec1 vec2 : embedding) : float :=
  let norm1 := norm vec1 in
  let norm2 := norm vec2 in
  if PrimFloat.eqb norm1 0 || PrimFloat.eqb norm2 0 then 0%float
  else if negb (length vec1 =? length vec2)%nat then 0%float
  else (dot vec1 vec2 / (norm1 * norm2))%float.


(** A column of a row the store returns: the key may be missing, and
    a key that is there holds null or a value. *)
Inductive cell (A : Type) : Type :=
  | Missing
  | Null
  | Cell (a : A).
Arguments Missing {A}.
Arguments Null {A}.
Arguments Cell {A} a.

(** A row of [document_chunks] as [get_knowledge_base_stats] reads it. *)
Record stats_row : Type := StatsRow {
  stats_chunk_tokens : cell Z;
  stats_kb_type : cell string
}.

(** [sum(chunk.get('chunk_tokens', 0) for chunk in data)], from the
    running total [acc]; [None] is the TypeError of adding a null. *)
Fixpoint sum_tokens (acc : Z) (data : list stats_row) : option Z :=
  match data with
  | [] => Some acc
  | chunk :: rest =>
      match stats_chunk_tokens chunk with
      | Missing => sum_tokens (acc + 0) rest
      | Null => None
      | Cell n => sum_tokens (acc + n) rest
      end
  end.

(** [chunk.get('kb_type', 'unknown')], a key of the dictionary
    [stats['kb_types']]; [None] is the key [None] of a null. *)
Definition kb_type_key (chunk : stats_row) : option string :=
  match stats_kb_type chunk with
  | Missing => Some "unknown"%string
  | Null => None
  | Cell s => Some s
  end.

(** One round of the loop that counts by [kb_type]; the key is in the
    dictionary when it is incremented. *)
Definition count_kb_type (kb_types : gmap (option string) Z)
    (chunk : stats_row) : gmap (option string) Z :=
  let kb_type := kb_type_key chunk in
  let kb_types :=
    match kb_types !! kb_type with
    | None => <[kb_type := 0]> kb_types
    | Some _ => kb_types
    end in
  alter (fun n => n + 1) kb_type kb_types.

(** The dictionary [stats]. *)
Record stats : Type := Stats {
  total_chunks : Z;
  total_tokens : Z;
  kb_types : gmap (option string) Z;
  recent_activity : Z
}.

(** [VectorService.get_knowledge_base_stats], given the rows the two
    queries return; [None] is the empty dictionary returned when the
    body raises. *)
Definition get_knowledge_base_stats {A : Type} (chunks_data : list stats_row)
    (logs_data : list A) : option stats :=
  match chunks_data with
  | [] => Some (Stats 0 0 ∅ (len logs_data))
  | _ :: _ =>
      match sum_tokens 0 chunks_data with
      | Some tokens =>
          Some (Stats (len chunks_data) tokens
                  (foldl count_kb_type ∅ chunks_data) (len logs_data))
      | None => None
      end
  end.

End VectorService.

(** ** document_storage.py *)

Module DocumentStorage.
Import Py.

(** The values of a row of the record store: scalars, and JSON objects
    such as [source_metadata]. *)
Inductive scalar : Type :=
  | SNull
  | SStr (s : string)
  | SInt (z : Z)
  | SBool (b : bool).

Inductive value : Type :=
  | Scalar (s : scalar)
  | Object (o : gmap string scalar).

#[global] Instance scalar_eq_dec : EqDecision scalar.
Proof. solve_decision. Defined.

#[global] Instance value_eq_dec : EqDecision value.
Proof. solve_decision. Defined.

(** A row is a dictionary from column names to values. *)
Abbreviation row := (gmap string value).

(** The three collections of knowledge-base entries. *)
Record store : Type := Store {
  global_knowledge_base : list row;
  thread_knowledge_base : list row;
  agent_knowledge_base_entries : list row
}.

Inductive table_name : Type :=
  | GlobalTable
  | ThreadTable
  | AgentTable.

Definition rows_of (db : store) (t : table_name) : list row :=
  match t with
  | GlobalTable => global_knowledge_base db
  | ThreadTable => thread_knowledge_base db
  | AgentTable => agent_knowledge_base_entries db
  end.

Definition set_rows (db : store) (t : table_name) (rs : list row) : store :=
  match t with
  | GlobalTable => Store rs (thread_knowledge_base db) (agent_knowledge_base_entries db)
  | ThreadTable => Store (global_knowledge_base db) rs (agent_knowledge_base_entries db)
  | AgentTable => Store (global_knowledge_base db) (thread_knowledge_base db) rs
  end.

(** [.eq(column, v)]: the rows whose column holds [v]. *)
Definition eq_ (column : string) (v : scalar) (r : row) : bool :=
  bool_decide (r !! column = Some (Scalar v)).

(** An optional identifier as the client sends it in a filter: the
    text of the value, [None] included. *)
Definition param (v : option string) : scalar :=
  match v with
  | Some s => SStr s
  | None => SStr "None"
  end.

(** [.select(columns)]: a returned row has the selected columns only. *)
Definition select (columns : list string) (r : row) : row :=
  filter (fun kv => kv.1 ∈ columns) r.

(** [.select(columns).eq(..)...execute()]: [result.data]. *)
Definition execute_select (columns : list string)
    (filters : list (row -> bool)) (rs : list row) : list row :=
  map (select columns)
    (List.filter (fun r => forallb (fun f => f r) filters) rs).

(** [.delete().in_(column, values).execute()]: what is left of the
    table. *)
Definition execute_delete_in (column : string) (values : list value)
    (rs : list row) : list row :=
  List.filter
    (fun r =>
       match r !! column with
       | Some v => negb (bool_decide (v ∈ values))
       | None => true
       end)
    rs.

(** [chunk.get("source_metadata", {}).get("original_filename")
    == filename]; [None] is the AttributeError of a [source_metadata]
    that is no dictionary. *)
Definition has_filename (filename : string) (chunk : row) : option bool :=
  match chunk !! "source_metadata" with
  | None => Some false
  | Some (Object o) =>
      Some (bool_decide (o !! "original_filename" = Some (SStr filename)))
  | Some (Scalar _) => None
  end.

(** The list comprehension that builds [chunk_ids]; [None] when it
    raises ([chunk["id"]] on a row without that key included). *)
Fixpoint chunk_ids (filename : string) (data : list row)
    : option (list value) :=
  match data with
  | [] => Some []
  | chunk :: rest =>
      match has_filename filename chunk with
      | None => None
      | Some true =>
          match chunk !! "id", chunk_ids filename rest with
          | Some i, Some ids => Some (i :: ids)
          | _, _ => None
          end
      | Some false => chunk_ids filename rest
      end
  end.

(** The result dictionary: [success] with [chunks_deleted], or
    [success: False]. *)
Inductive deletion : Type :=
  | Deleted (chunks_deleted : Z)
  | Failed.

Definition table_of (kb_type : string) : option table_name :=
  if String.eqb kb_type "global" then Some GlobalTable
  else if String.eqb kb_type "thread" then Some ThreadTable
  else if String.eqb kb_type "agent" then Some AgentTable
  else None.

(** The filters of the query that looks for the chunks. *)
Definition scope_filters (t : table_name) (account_id : string)
    (thread_id agent_id : option string) : list (row -> bool) :=
  match t with
  | GlobalTable => [eq_ "account_id" (SStr account_id)]
  | ThreadTable =>
      [eq_ "account_id" (SStr account_id); eq_ "thread_id" (param thread_id)]
  | AgentTable =>
      [eq_ "account_id" (SStr account_id); eq_ "agent_id" (param agent_id)]
  end
  ++ [eq_ "source_type" (SStr "file_upload")].

(** [DocumentStorageService.delete_document_chunks]: the store after
    the call and the result. *)
Definition delete_document_chunks (db : store) (account_id filename
    kb_type : string) (thread_id agent_id : option string)
    : store * deletion :=
  match table_of kb_type with
  | None => (db, Failed)
  | Some t =>
      let data :=
        execute_select ["id"%string]
          (scope_filters t account_id thread_id agent_id) (rows_of db t) in
      match data with
      | [] => (db, Deleted 0)
      | _ :: _ =>
          match chunk_ids filename data with
          | None => (db, Failed)
          | Some [] => (db, Deleted 0)
          | Some ((_ :: _) as ids) =>
              (set_rows db t (execute_delete_in "id" ids (rows_of db t)),
               Deleted (len ids))
          end
      end
  end.

(** The entries the specification means: those of the scope that came
    from a file upload and carry the filename. *)
Definition is_chunk_of (t : table_name) (account_id filename : string)
    (thread_id agent_id : option string) (r : row) : bool :=
  forallb (fun f => f r) (scope_filters t account_id thread_id agent_id)
  && match r !! "source_metadata" with
     | Some (Object o) =>
         bool_decide (o !! "original_filename" = Some (SStr filename))
     | _ => false
     end.


(** A chunk as [get_document_chunks] formats it; the fields are the
    entries [chunk_id], [content], [filename], [chunk_index],
    [total_chunks], [size], [created_at] and [metadata] of the
    dictionary. *)
Record document_chunk : Type := DocumentChunk {
  chunk_id : value;
  content : value;
  original_filename : scalar;
  index_in_document : scalar;
  chunks_in_document : scalar;
  size_in_characters : scalar;
  created_at : value;
  metadata : gmap string scalar
}.

(** [chunk_data.get("source_metadata", {})] as the receiver of a
    [.get]; [None] is the AttributeError of a value that is no
    dictionary. *)
Definition metadata_of (chunk_data : row) : option (gmap string scalar) :=
  match chunk_data !! "source_metadata" with
  | None => Some ∅
  | Some (Object o) => Some o
  | Some (Scalar _) => None
  end.

(** The dictionary built for one row of [result.data]; [None] when
    building it raises (a KeyError included). *)
Definition format_chunk (chunk_data : row) : option document_chunk :=
  match chunk_data !! "id", chunk_data !! "content",
        metadata_of chunk_data, chunk_data !! "created_at" with
  | Some id, Some c, Some sm, Some created =>
      Some (DocumentChunk id c
              (default (SStr "Unknown") (sm !! "original_filename"))
              (default (SInt 0) (sm !! "chunk_index"))
              (default (SInt 1) (sm !! "total_chunks"))
              (default (SInt 0) (sm !! "chunk_size"))
              created sm)
  | _, _, _, _ => None
  end.

(** [DocumentStorageService.get_document_chunks], given [result.data],
    the rows the query returned: an exception of the body is caught
    and gives the empty list. *)
Definition get_document_chunks (kb_type : string) (data : list row)
    : list document_chunk :=
  match table_of kb_type with
  | None => []
  | Some _ =>
      match mapM format_chunk data with
      | Some chunks => chunks
      | None => []
      end
  end.

(** The text of a value that is a string. *)
Definition str_of (v : value) : option text :=
  match v with
  | Scalar (SStr s) => Some (lit s)
  | _ => None
  end.

(** A chunk after [chunk["relevance_score"] = score]. *)
Record scored_chunk : Type := ScoredChunk {
  scored_document : document_chunk;
  relevance_score : Z
}.

(** [if thread_id:] on an optional string. *)
Definition truthy (v : option string) : bool :=
  match v with
  | Some s => negb (String.eqb s "")
  | None => false
  end.

(** [all_chunks]: the chunks of the tiers that are searched, given
    what [get_document_chunks] returns for each tier. *)
Definition searched_chunks (kb_type : string) (thread_id agent_id : option string)
    (global_chunks thread_chunks agent_chunks : list document_chunk)
    : list document_chunk :=
  (if String.eqb kb_type "all" || String.eqb kb_type "global"
   then global_chunks else [])
  ++ (if (String.eqb kb_type "all" || String.eqb kb_type "thread")
         && truthy thread_id
      then thread_chunks else [])
  ++ (if (String.eqb kb_type "all" || String.eqb kb_type "agent")
         && truthy agent_id
      then agent_chunks else []).

(** The result dictionary of a successful search. *)
Record search_result : Type := SearchResult {
  total_chunks_found : Z;
  top_results : list scored_chunk
}.

(** [scored_chunks.sort(key=relevance_score, reverse=True)]: a stable
    sort into descending order. *)
Fixpoint insert_by_relevance (x : scored_chunk) (l : list scored_chunk)
    : list scored_chunk :=
  match l with
  | [] => [x]
  | y :: l' =>
      if relevance_score x <? relevance_score y
      then y :: insert_by_relevance x l'
      else x :: y :: l'
  end.

Definition sort_by_relevance (l : list scored_chunk) : list scored_chunk :=
  foldr insert_by_relevance [] l.

Section KeywordSearch.

(** [str.lower]. *)
Variable lower : text -> text.

(** The score of one chunk; [None] is the AttributeError of a content
    that is no string. *)
Definition relevance (query : text) (chunk : document_chunk) : option Z :=
  match str_of (content chunk) with
  | None => None
  | Some c =>
      let content_lower := lower c in
      Some (foldl
              (fun score term =>
                 if contains term content_lower then
                   let score := score + 1 in
                   if bool_decide (term = lower query) then score + 2
                   else score
                 else score)
              0 (split (lower query)))
  end.

(** The loop over [all_chunks] that builds [scored_chunks]. *)
Fixpoint score_chunks (query : text) (all_chunks : list document_chunk)
    : option (list scored_chunk) :=
  match all_chunks with
  | [] => Some []
  | chunk :: rest =>
      match relevance query chunk with
      | None => None
      | Some score =>
          match score_chunks query rest with
          | None => None
          | Some scored =>
              Some (if score >? 0 then ScoredChunk chunk score :: scored
                    else scored)
          end
      end
  end.

(** [DocumentStorageService.search_documents], given what
    [get_document_chunks] returns for the three tiers; [None] is the
    result with [success: False]. *)
Definition search_documents
    (global_chunks thread_chunks agent_chunks : list document_chunk)
    (query : text) (kb_type : string) (thread_id agent_id : option string)
    (limit : Z) : option search_result :=
  let all_chunks :=
    searched_chunks kb_type thread_id agent_id
      global_chunks thread_chunks agent_chunks in
  match score_chunks query all_chunks with
  | None => None
  | Some scored_chunks =>
      let scored_chunks := sort_by_relevance scored_chunks in
      Some (SearchResult (len scored_chunks) (slice_to limit scored_chunks))
  end.

End KeywordSearch.


(** [c in s] for a character and a string of the store. *)
Fixpoint has_char (c : ascii) (s : string) : bool :=
  match s with
  | EmptyString => false
  | String d s' => Ascii.eqb d c || has_char c s'
  end.

(** [s.split(sep)[-1]]: what follows the last separator. *)
Fixpoint last_segment (sep : ascii) (s : string) : string :=
  match s with
  | EmptyString => EmptyString
  | String c s' =>
      if Ascii.eqb c sep then last_segment sep s'
      else if has_char sep s' then last_segment sep s'
      else s
  end.

(** What an [insert(...).execute()] does: it raises, it returns no
    data, or it returns the inserted row, of which the code reads the
    [id]. *)
Inductive insert_reply : Type :=
  | InsertRaises
  | InsertEmpty
  | Inserted (id : string).

(** [source_metadata] of the entry of the processing queue; an entry
    is [None] when the processing result has no such key. *)
Record queue_metadata : Type := QueueMetadata {
  qm_chunk_size : option Z;
  qm_overlap : option Z;
  qm_total_chunks : option Z;
  qm_total_tokens : option Z;
  qm_original_size : option Z;
  qm_cleaned_size : option Z
}.

(** [processing_data] of [_create_processing_queue_entry]. *)
Record processing_data : Type := ProcessingData {
  pd_account_id : string;
  pd_thread_id : option string;
  pd_agent_id : option string;
  pd_kb_type : string;
  pd_original_filename : string;
  pd_file_path : string;
  pd_file_size : Z;
  pd_mime_type : string;
  pd_document_type : string;
  pd_status : string;
  pd_extracted_text : text;
  pd_processing_started_at : string;
  pd_source_metadata : queue_metadata
}.

(** [source_metadata] of a stored chunk. *)
Record chunk_metadata : Type := ChunkMetadata {
  cm_original_filename : string;
  cm_chunk_index : Z;
  cm_total_chunks : Z;
  cm_chunk_size : Z;
  cm_word_count : Z;
  cm_start_word : Z;
  cm_end_word : Z;
  cm_queue_id : string;
  cm_processing_timestamp : string
}.

(** [chunk_data] of [_store_document_chunks]; [cd_thread_id] and
    [cd_agent_id] are [None] when the dictionary has no such key. *)
Record chunk_data : Type := ChunkData {
  cd_account_id : string;
  cd_name : string;
  cd_description : string;
  cd_content : text;
  cd_usage_context : string;
  cd_is_active : bool;
  cd_source_type : string;
  cd_source_metadata : chunk_metadata;
  cd_thread_id : option (option string);
  cd_agent_id : option (option string)
}.

(** The operations sent to the record store. *)
Inductive db_op : Type :=
  | InsertQueue (data : processing_data)
  | InsertChunk (table : table_name) (data : chunk_data)
  | UpdateQueue (queue_id status : string) (error_message : option string)
      (processing_completed_at : string).

(** An entry of [stored_chunks]. *)
Record stored_chunk : Type := StoredChunk {
  sc_chunk_id : string;
  sc_chunk_index : Z;
  sc_size : Z
}.

(** The result dictionary of [_store_document_chunks]. *)
Inductive storage_result : Type :=
  | StorageFailed (error : string)
  | StorageDone (chunks_stored total_chunks : Z)
      (stored_chunks : list stored_chunk).

(** The result dictionary of [store_document]: a failure with
    [job_id: None], the failed result of [_store_document_chunks]
    handed on, or the success with [job_id], [chunks_stored],
    [total_chunks] and the [processing_info]. *)
Inductive store_outcome : Type :=
  | StoreFailed (error : string)
  | StoreStorageFailed (error : string)
  | Stored (job_id : string) (chunks_stored total_chunks : Z)
      (info_chunk_size info_overlap original_size cleaned_size : Z).

(** [processing_result.get("chunks", [])]. *)
Definition result_chunks (processing_result : DocumentProcessor.processed)
    : list DocumentProcessor.chunk :=
  match processing_result with
  | DocumentProcessor.NoTextExtracted => []
  | DocumentProcessor.Processed _ _ chunks _ _ _ _ _ _ => chunks
  end.

(** The entries of the processing result that the queue entry
    records. *)
Definition result_metadata (processing_result : DocumentProcessor.processed)
    : queue_metadata :=
  match processing_result with
  | DocumentProcessor.NoTextExtracted =>
      QueueMetadata None None (Some 0) None None None
  | DocumentProcessor.Processed _ _ _ total_chunks total_tokens
      info_chunk_size info_overlap original_size cleaned_size =>
      QueueMetadata (Some info_chunk_size) (Some info_overlap)
        (Some total_chunks) (Some total_tokens) (Some original_size)
        (Some cleaned_size)
  end.

(** [processing_result.get("raw_text", "")]. *)
Definition result_raw_text (processing_result : DocumentProcessor.processed)
    : text :=
  match processing_result with
  | DocumentProcessor.NoTextExtracted => []
  | DocumentProcessor.Processed raw_text _ _ _ _ _ _ _ _ => raw_text
  end.

Section StoreDocument.

(** The extractors of the processor. *)
Variable extractor : string -> list Byte.byte -> string -> text.
Variable fallback : list Byte.byte -> string -> text.

(** [datetime.utcnow().isoformat()] at the n-th reading of the clock. *)
Variable utcnow : nat -> string.

(** The answers of the record store to the inserts. *)
Variable queue_insert : processing_data -> insert_reply.
Variable chunk_insert : table_name -> chunk_data -> insert_reply.

(** [DocumentStorageService._create_processing_queue_entry] at the
    reading [tick] of the clock: the insert it sends and the [id] of
    the entry, [None] when the insert raises or returns no data. *)
Definition _create_processing_queue_entry (account_id : string)
    (thread_id agent_id : option string) (kb_type filename : string)
    (file_content : list Byte.byte) (mime_type : string)
    (processing_result : DocumentProcessor.processed) (tick : nat)
    : db_op * option string :=
  let processing_data :=
    ProcessingData account_id thread_id agent_id kb_type filename
      ("uploads/" +:+ filename) (len file_content) mime_type
      (last_segment "/" mime_type) "processing"
      (result_raw_text processing_result) (utcnow tick)
      (result_metadata processing_result) in
  (InsertQueue processing_data,
   match queue_insert processing_data with
   | Inserted id => Some id
   | InsertRaises | InsertEmpty => None
   end).

(** [for i, chunk in enumerate(chunks)] in [_store_document_chunks],
    entered at index [i] and at the reading [tick] of the clock: the
    inserts sent and the entries of [stored_chunks]. A chunk is
    skipped when the knowledge-base type is unknown, and left out of
    [stored_chunks] when its insert raises or returns no data. *)
Fixpoint store_chunks (account_id : string) (thread_id agent_id : option string)
    (kb_type filename queue_id : string) (total : Z) (i : Z) (tick : nat)
    (chunks : list DocumentProcessor.chunk) : list db_op * list stored_chunk :=
  match chunks with
  | [] => ([], [])
  | chunk :: rest =>
      let chunk_data (thread agent : option (option string)) :=
        ChunkData account_id
          (filename +:+ " - Chunk " +:+ pretty (i + 1))
          ("Document chunk " +:+ pretty (i + 1) +:+ " of " +:+ pretty total
             +:+ " from " +:+ filename)
          (DocumentProcessor.chunk_text_of chunk) "contextual" true
          "file_upload"
          (ChunkMetadata filename i total (DocumentProcessor.size chunk)
             (DocumentProcessor.word_count chunk)
             (DocumentProcessor.start_word chunk)
             (DocumentProcessor.end_word chunk) queue_id (utcnow tick))
          thread agent in
      let '(ops, stored) :=
        store_chunks account_id thread_id agent_id kb_type filename queue_id
          total (i + 1) (S tick) rest in
      match table_of kb_type with
      | None => (ops, stored)
      | Some table =>
          let data :=
            match table with
            | GlobalTable => chunk_data None None
            | ThreadTable => chunk_data (Some thread_id) None
            | AgentTable => chunk_data None (Some agent_id)
            end in
          (InsertChunk table data :: ops,
           match chunk_insert table data with
           | Inserted id =>
               StoredChunk id i (DocumentProcessor.size chunk) :: stored
           | InsertRaises | InsertEmpty => stored
           end)
      end
  end.

(** [DocumentStorageService._store_document_chunks], entered at the
    reading [tick] of the clock. *)
Definition _store_document_chunks (account_id : string)
    (thread_id agent_id : option string) (kb_type filename : string)
    (processing_result : DocumentProcessor.processed) (queue_id : string)
    (tick : nat) : list db_op * storage_result :=
  let chunks := result_chunks processing_result in
  match chunks with
  | [] => ([], StorageFailed "No chunks to store")
  | _ :: _ =>
      let '(ops, stored_chunks) :=
        store_chunks account_id thread_id agent_id kb_type filename queue_id
          (len chunks) 0 tick chunks in
      (ops, StorageDone (len stored_chunks) (len chunks) stored_chunks)
  end.

(** [DocumentStorageService._update_processing_status] at the reading
    [tick] of the clock: the update it sends. *)
Definition _update_processing_status (queue_id status : string)
    (message : option string) (tick : nat) : db_op :=
  UpdateQueue queue_id status
    (match message with
     | Some m => if String.eqb m "" then None else Some m
     | None => None
     end)
    (utcnow tick).

(** [DocumentStorageService.store_document]: the operations sent to
    the record store, in order, and the result. The readings of the
    clock are numbered from 0: the queue entry takes one, every chunk
    one, the status update one. [None] only if the processor were to
    exceed the bound of its newline loop. *)
Definition store_document (account_id : string) (file_content : list Byte.byte)
    (mime_type filename kb_type : string) (thread_id agent_id : option string)
    (chunk_size overlap : Z) : option (list db_op * store_outcome) :=
  match DocumentProcessor.process_document extractor fallback file_content
          mime_type filename chunk_size overlap with
  | None => None
  | Some DocumentProcessor.NoTextExtracted =>
      Some ([],
            StoreFailed
              ("Document processing failed: "
               +:+ "No text content could be extracted"))
  | Some ((DocumentProcessor.Processed _ _ chunks total_chunks _
             info_chunk_size info_overlap original_size cleaned_size)
          as processing_result) =>
      let '(queue_op, queue_entry) :=
        _create_processing_queue_entry account_id thread_id agent_id kb_type
          filename file_content mime_type processing_result 0 in
      match queue_entry with
      | None =>
          Some ([queue_op],
                StoreFailed "Failed to create processing queue entry")
      | Some queue_id =>
          let '(ops, storage_result) :=
            _store_document_chunks account_id thread_id agent_id kb_type
              filename processing_result queue_id 1 in
          let tick := S (length chunks) in
          match storage_result with
          | StorageFailed error =>
              Some (queue_op :: ops
                      ++ [_update_processing_status queue_id "failed"
                            (Some error) 1],
                    StoreStorageFailed error)
          | StorageDone chunks_stored _ _ =>
              Some (queue_op :: ops
                      ++ [_update_processing_status queue_id "completed"
                            (Some ("Successfully stored "
                                   +:+ pretty chunks_stored +:+ " chunks"))
                            tick],
                    Stored queue_id chunks_stored total_chunks
                      info_chunk_size info_overlap original_size cleaned_size)
          end
      end
  end.

End StoreDocument.

End DocumentStorage.

(** ** api.py *)

Module Api.

(** [allowed_types] of [upload_document]. *)
Definition allowed_types : list string :=
  [ "application/pdf";
    "text/csv";
    "application/vnd.openxmlformats-officedocument.wordprocessingml.document";
    "text/plain";
    "text/markdown";
    "application/json" ]%string.

(** What the checks at the head of [upload_document] do with a
    request: they raise an [HTTPException] with a status code, or the
    processing of the file starts. *)
Inductive gate : Type :=
  | Rejected (status_code : Z)
  | Proceeds.

Definition max_size : Z := 50 * 1024 * 1024.

(** [upload_document] up to the start of the processing, given the
    feature flag, [file.content_type] and [file.size]. *)
Definition upload_document (enabled : bool) (content_type : option string)
    (size : Z) : gate :=
  if negb enabled then Rejected 403
  else if negb (bool_decide (content_type ∈ map Some allowed_types))
  then Rejected 400
  else if size >? max_size then Rejected 400
  else Proceeds.

End Api.

(** ** Vocabulary of the statements *)

Module Vocabulary.
Import Py DocumentProcessor VectorService.

(** A word: non-empty and free of whitespace. *)
Definition is_word (w : text) : Prop :=
  w <> [] /\ Forall (fun c => isspace c = false) w.

(** A text that neither begins nor ends with whitespace. *)
Definition trimmed (s : text) : Prop :=
  (exists c s', s = c :: s' /\ isspace c = false)
  /\ (exists s' c, s = s' ++ [c] /\ isspace c = false).

(** A cleaned line: words joined by single spaces. *)
Definition is_line (l : text) : Prop :=
  exists ws, ws <> [] /\ Forall is_word ws /\ l = join [SP] ws.

(** A chunk that records where its words lie in the word sequence
    [ws] of the text. *)
Record chunk_ok (ws : list text) (c : chunk) : Prop := ChunkOk {
  ok_start : 0 <= start_word c;
  ok_order : start_word c <= end_word c;
  ok_end : end_word c < len ws;
  ok_text :
    chunk_text_of c = join [SP] (slice (start_word c) (end_word c + 1) ws);
  ok_count : word_count c = end_word c - start_word c + 1;
  ok_size : size c = len (chunk_text_of c)
}.

(** The number of words a chunk hands over to its successor: the
    configured overlap, but no more words than the chunk has. *)
Definition shared (overlap : Z) (prev : chunk) : Z :=
  Z.min (Z.max overlap 0) (word_count prev).

(** A chunk and its successor. *)
Definition linked (overlap : Z) (prev c : chunk) : Prop :=
  start_word c = end_word prev + 1 - shared overlap prev
  /\ end_word prev < end_word c.

Inductive chain (overlap : Z) : list chunk -> Prop :=
  | chain_nil : chain overlap []
  | chain_one c : chain overlap [c]
  | chain_cons p c l :
      linked overlap p c -> chain overlap (c :: l) -> chain overlap (p :: c :: l).

(** The chunks of a text with the words [ws]: none when there is no
    word; otherwise every chunk is a window of [ws], every chunk is
    linked to its successor, the first chunk starts at word 0 and the
    last one ends at the last word. *)
Definition chunking (overlap : Z) (ws : list text) (cs : list chunk) : Prop :=
  (cs = [] /\ ws = [])
  \/ (Forall (chunk_ok ws) cs /\ chain overlap cs
      /\ (exists c, head cs = Some c /\ start_word c = 0)
      /\ (exists c, last cs = Some c /\ end_word c = len ws - 1)).

(** The chunks emitted so far together with the chunk in progress, as
    it would be emitted at index [i]. *)
Definition pending (st : chunker) (i : Z) : list chunk :=
  chunks st ++ [make_chunk (current_chunk st) i].

(** The loop invariant of [_chunk_text] after the words [done]. *)
Definition chunker_inv (overlap : Z) (done : list text) (st : chunker) : Prop :=
  (done = [] /\ chunks st = [] /\ current_chunk st = [])
  \/ (current_chunk st <> []
      /\ (exists pre, done = pre ++ current_chunk st)
      /\ chunking overlap done (pending st (len done))).

(** Start offsets that grow strictly from a chunk to the next. *)
Definition starts_strictly_increasing (cs : list chunk) : Prop :=
  forall i p c, cs !! i = Some p -> cs !! S i = Some c ->
    start_word p < start_word c.

(** Every chunk after the first begins with exactly [overlap] trailing
    words of its predecessor. *)
Definition overlaps_exactly (overlap : Z) (cs : list chunk) : Prop :=
  forall i p c, cs !! i = Some p -> cs !! S i = Some c ->
    0 <= overlap <= word_count p
    /\ take (Z.to_nat overlap) (chunk_words c)
       = drop (Z.to_nat (word_count p - overlap)) (chunk_words p).

(** Reconstruction that drops a fixed number of words, the configured
    overlap, from every chunk after the first. *)
Definition reconstruct_fixed (overlap : Z) (cs : list chunk) : list text :=
  match cs with
  | [] => []
  | c :: cs' =>
      chunk_words c
      ++ concat (map (fun c' => drop (Z.to_nat overlap) (chunk_words c')) cs')
  end.

(** [a] is scored at least as high as [b]. *)
Definition score_ge (a b : scored) : Prop :=
  geb (similarity_score a) (similarity_score b) = true.

(** A returned entry: a row of the candidates that has an embedding,
    scored with its similarity to the query, at or above the
    threshold. *)
Definition is_hit (similarity : embedding -> embedding -> float)
    (query_embedding : option embedding) (data : option (list row))
    (similarity_threshold : float) (s : scored) : Prop :=
  geb (similarity_score s) similarity_threshold = true
  /\ exists q rows e,
       query_embedding = Some q /\ data = Some rows
       /\ scored_row s ∈ rows /\ row_embedding (scored_row s) = Some e
       /\ similarity_score s = similarity q e.

(** The similarities of the candidates that have an embedding. *)
Definition candidate_scores (similarity : embedding -> embedding -> float)
    (q : embedding) (rows : list row) : list float :=
  omap (fun r =>
          match row_embedding r with
          | Some ((_ :: _) as e) => Some (similarity q e)
          | _ => None
          end) rows.

(** The best similarity among the candidates, if there is a candidate. *)
Definition best_score (similarity : embedding -> embedding -> float)
    (q : embedding) (rows : list row) : option float :=
  match candidate_scores similarity q rows with
  | [] => None
  | x :: l => Some (py_max x l)
  end.

(** A batch encoder that embeds the texts one by one and raises as
    soon as one of them fails. *)
Definition batch_of (embed : text -> option embedding) (l : list text)
    : option (list embedding) :=
  mapM embed l.

(** An embedder that fails on one text only. *)
Definition fails_on (bad : text) (t : text) : option embedding :=
  if bool_decide (t = bad) then None else Some [1%float].

(** Every text that the encoder embeds when it is alone in the batch
    holds its embedding in the result of the batch. *)
Definition keeps_good_items (encode : list text -> option (list embedding))
    (chunks : list text) : Prop :=
  forall i c e, chunks !! i = Some c ->
    encode [_preprocess_text c] = Some [e] ->
    generate_chunk_embeddings encode chunks !! i = Some (Some e).

(** A query embedding and three candidate rows; the similarities are
    24/25, 1 and 1. *)
Definition sample_query : embedding := [3; 4]%float.

Definition sample_rows : list row :=
  [ Row 1 (Some [4; 3]%float); Row 2 (Some [3; 4]%float);
    Row 3 (Some [6; 8]%float) ].

(** One candidate row, with the similarity 24/25 to the query. *)
Definition near_miss_rows : list row := [Row 1 (Some [4; 3]%float)].

(** A store whose global collection holds the one chunk of an
    uploaded file. *)
Definition report_chunk : gmap string DocumentStorage.value :=
  <["id" := DocumentStorage.Scalar (DocumentStorage.SStr "c1")]>
  (<["account_id" := DocumentStorage.Scalar (DocumentStorage.SStr "acct")]>
  (<["source_type" :=
       DocumentStorage.Scalar (DocumentStorage.SStr "file_upload")]>
  (<["source_metadata" :=
       DocumentStorage.Object
         {["original_filename" := DocumentStorage.SStr "report.pdf"]}]> ∅))).

Definition report_store : DocumentStorage.store :=
  DocumentStorage.Store [report_chunk] [] [].

(** A text that begins with a two-character sentence and goes on
    without a sentence end. *)
Definition stalling_content : text := lit "a." ++ repeat 97%N 200.

(** Whether a candidate row has an embedding whose similarity to the
    query is at or above the threshold. *)
Definition reaches (similarity : embedding -> embedding -> float)
    (q : embedding) (similarity_threshold : float) (r : row) : bool :=
  match row_embedding r with
  | Some ((_ :: _) as e) => geb (similarity q e) similarity_threshold
  | _ => false
  end.

(** Whether two whitespace characters stand side by side in a text. *)
Fixpoint has_ws_pair (s : text) : bool :=
  match s with
  | c :: ((d :: _) as s') => (isspace c && isspace d) || has_ws_pair s'
  | _ => false
  end.

(** The end offset of the last chunk of [l]; [e] when [l] is empty. *)
Definition last_end (e : Z) (l : list chunk) : Z :=
  match last l with
  | Some c => end_word c
  | None => e
  end.

(** Every chunk that ends at least two words after its predecessor
    (after [prev_end] for the first one) has a text shorter than
    [limit] characters. *)
Fixpoint fits_from (limit prev_end : Z) (l : list chunk) : Prop :=
  match l with
  | [] => True
  | c :: l' =>
      (2 <= end_word c - prev_end -> size c + 1 <= limit)
      /\ fits_from limit (end_word c) l'
  end.

(** The chunk was closed because the next word of [ws] did not fit:
    its text, a space, the word and a space exceed [limit]. *)
Definition greedy (limit : Z) (ws : list text) (c : chunk) : Prop :=
  exists w, ws !! Z.to_nat (end_word c + 1) = Some w
            /\ size c + 1 + (len w + 1) > limit.

(** What the loop of [_chunk_text] keeps about sizes, after the words
    [done]. *)
Definition sizes_inv (limit : Z) (done : list text) (st : chunker) : Prop :=
  current_size st = words_size (current_chunk st)
  /\ Forall (greedy limit done) (chunks st)
  /\ fits_from limit (-1) (chunks st)
  /\ (current_chunk st = [] -> chunks st = [] /\ done = [])
  /\ (current_chunk st <> [] ->
      0 < len done /\ last_end (-1) (chunks st) < len done)
  /\ (2 <= len done - 1 - last_end (-1) (chunks st) ->
      current_size st <= limit).


(** [str.lower] on a text of ASCII characters. *)
Definition ascii_lower (s : text) : text :=
  map (fun c => if ((65 <=? c) && (c <=? 90))%N then (c + 32)%N else c) s.

(** The number of query terms that occur in the lowered content. *)
Definition term_hits (lower : text -> text) (query c : text) : Z :=
  len (List.filter (fun term => contains term (lower c)) (split (lower query))).

(** Whether a chunk holds a text in which a query term occurs. *)
Definition mentions (lower : text -> text) (query : text)
    (chunk : DocumentStorage.document_chunk) : bool :=
  match DocumentStorage.str_of (DocumentStorage.content chunk) with
  | Some c => 0 <? term_hits lower query c
  | None => false
  end.

(** A row of a knowledge-base table that holds the text of a chunk. *)
Definition chunk_row (id content : string) : gmap string DocumentStorage.value :=
  <["id" := DocumentStorage.Scalar (DocumentStorage.SStr id)]>
  (<["content" := DocumentStorage.Scalar (DocumentStorage.SStr content)]>
  (<["created_at" := DocumentStorage.Scalar (DocumentStorage.SStr "2025-01-01")]>
  (<["source_metadata" := DocumentStorage.Object ∅]> ∅))).

(** Three chunks of the global tier. *)
Definition sample_chunks : list DocumentStorage.document_chunk :=
  DocumentStorage.get_document_chunks "global"
    [ chunk_row "k1" "The cat sat"; chunk_row "k2" "A dog and a Cat";
      chunk_row "k3" "No pets here" ].

(** The number of rows that are counted under a key of [kb_types]. *)
Definition rows_of_type (k : option string) (data : list stats_row) : Z :=
  len (List.filter (fun r => bool_decide (kb_type_key r = k)) data).

(** The sum of the counts of [kb_types]. *)
Definition counts_total (kb_types : gmap (option string) Z) : Z :=
  map_fold (fun _ n acc => n + acc) 0 kb_types.


(** [a] is ranked at least as high as [b]. *)
Definition ranked_ge (a b : DocumentStorage.scored_chunk) : Prop :=
  DocumentStorage.relevance_score b <= DocumentStorage.relevance_score a.


(** A row from which [get_document_chunks] can build no chunk: a key
    it indexes is missing, or [source_metadata] is no dictionary. *)
Definition malformed (r : gmap string DocumentStorage.value) : Prop :=
  r !! "id" = None \/ r !! "content" = None \/ r !! "created_at" = None
  \/ exists s, r !! "source_metadata" = Some (DocumentStorage.Scalar s).

(** The chunk of a row: the row's id, content and creation time, its
    [source_metadata] (empty when the row has none), and the entries
    of the metadata or their defaults. *)
Definition formats (r : gmap string DocumentStorage.value)
    (c : DocumentStorage.document_chunk) : Prop :=
  r !! "id" = Some (DocumentStorage.chunk_id c)
  /\ r !! "content" = Some (DocumentStorage.content c)
  /\ r !! "created_at" = Some (DocumentStorage.created_at c)
  /\ DocumentStorage.metadata_of r = Some (DocumentStorage.metadata c)
  /\ DocumentStorage.original_filename c
     = default (DocumentStorage.SStr "Unknown")
         (DocumentStorage.metadata c !! "original_filename")
  /\ DocumentStorage.index_in_document c
     = default (DocumentStorage.SInt 0)
         (DocumentStorage.metadata c !! "chunk_index")
  /\ DocumentStorage.chunks_in_document c
     = default (DocumentStorage.SInt 1)
         (DocumentStorage.metadata c !! "total_chunks")
  /\ DocumentStorage.size_in_characters c
     = default (DocumentStorage.SInt 0)
         (DocumentStorage.metadata c !! "chunk_size").


(** Whether an operation is the insert of a chunk that the record
    store answers with the inserted row. *)
Definition answered
    (chunk_insert : DocumentStorage.table_name -> DocumentStorage.chunk_data
                    -> DocumentStorage.insert_reply)
    (op : DocumentStorage.db_op) : bool :=
  match op with
  | DocumentStorage.InsertChunk t d =>
      match chunk_insert t d with
      | DocumentStorage.Inserted _ => true
      | _ => false
      end
  | _ => false
  end.

(** The content of the chunk an operation inserts. *)
Definition inserted_content (op : DocumentStorage.db_op) : option text :=
  match op with
  | DocumentStorage.InsertChunk _ d => Some (DocumentStorage.cd_content d)
  | _ => None
  end.

(** The insert of a chunk of an uploaded file into a table: an active
    entry of the account with the source type [file_upload], the
    filename and the queue entry in its metadata. *)
Definition is_upload_of (account_id filename queue_id : string)
    (table : DocumentStorage.table_name) (op : DocumentStorage.db_op) : Prop :=
  exists d,
    op = DocumentStorage.InsertChunk table d
    /\ DocumentStorage.cd_account_id d = account_id
    /\ DocumentStorage.cd_source_type d = "file_upload"%string
    /\ DocumentStorage.cd_is_active d = true
    /\ DocumentStorage.cm_original_filename (DocumentStorage.cd_source_metadata d)
       = filename
    /\ DocumentStorage.cm_queue_id (DocumentStorage.cd_source_metadata d)
       = queue_id.

(** Whether an operation sets the status of a queue entry to [failed]. *)
Definition marks_failed (op : DocumentStorage.db_op) : bool :=
  match op with
  | DocumentStorage.UpdateQueue _ status _ _ => String.eqb status "failed"
  | _ => false
  end.

End Vocabulary.

(** ** Properties of the Python string operations *)

Section PyFacts.
Import Py Vocabulary.

Lemma len_nonneg {A : Type} (l : list A) : 0 <= len l.
Proof. unfold len. lia. Qed.

Lemma len_app {A : Type} (l1 l2 : list A) : len (l1 ++ l2) = len l1 + len l2.
Proof. unfold len. rewrite length_app. lia. Qed.

Lemma split_in_word (w s : text) :
  is_word w -> in_word s = false -> split (w ++ s) = w :: split s.
Proof.
  intros [Hne Hw] Hs. induction w as [|c w IH]; [done|].
  inversion Hw as [|? ? Hc Hw']; subst. cbn [app split]. rewrite Hc.
  destruct w as [|c' w].
  - cbn [app]. rewrite Hs. reflexivity.
  - assert (Hin : in_word ((c' :: w) ++ s) = true).
    { inversion Hw' as [|? ? Hc' _]; subst. cbn. by rewrite Hc'. }
    rewrite Hin, IH; [reflexivity|done|done].
Qed.

Lemma split_word (w : text) : is_word w -> split w = [w].
Proof.
  intros Hw. rewrite <- (app_nil_r w) at 1.
  by rewrite split_in_word.
Qed.

Lemma split_words (s : text) : Forall is_word (split s).
Proof.
  induction s as [|c s IH]; [constructor|].
  cbn [split]. destruct (isspace c) eqn:Hc; [done|].
  destruct (in_word s) eqn:Hin.
  - destruct (split s) as [|w ws] eqn:Hs.
    + repeat constructor; [done|done].
    + inversion IH as [|? ? [Hne Hw] Hws]; subst.
      constructor; [|done]. split; [done|by constructor].
  - constructor; [|done]. split; [done|by repeat constructor].
Qed.

Lemma split_join (ws : list text) :
  Forall is_word ws -> split (join [SP] ws) = ws.
Proof.
  induction 1 as [|w ws Hw Hws IH]; [done|].
  destruct ws as [|w' ws].
  - by apply split_word.
  - change (join [SP] (w :: w' :: ws)) with (w ++ SP :: join [SP] (w' :: ws)).
    rewrite split_in_word; [|done|done].
    change (split (SP :: ?s)) with (split s). by rewrite IH.
Qed.

Lemma word_trimmed (w : text) : is_word w -> trimmed w.
Proof.
  intros [Hne Hw]. split.
  - destruct w as [|c w]; [done|]. inversion Hw; subst. by exists c, w.
  - destruct (decide (w = [])) as [->|_]; [done|].
    destruct w as [|c w _] using rev_ind; [done|].
    apply Forall_app in Hw as [_ Hc]. inversion Hc; subst. by exists w, c.
Qed.

Lemma trimmed_app (a sep b : text) :
  trimmed a -> trimmed b -> trimmed (a ++ sep ++ b).
Proof.
  intros [(c & a' & -> & Hc) _] [_ (b' & d & -> & Hd)]. split.
  - by exists c, (a' ++ sep ++ b' ++ [d]).
  - exists ((c :: a') ++ sep ++ b'), d. by rewrite <- !app_assoc.
Qed.

Lemma join_trimmed (sep : text) (ps : list text) :
  ps <> [] -> Forall trimmed ps -> trimmed (join sep ps).
Proof.
  intros Hne Hps. induction Hps as [|p ps Hp Hps IH]; [done|].
  destruct ps as [|p' ps]; [done|].
  change (join sep (p :: p' :: ps)) with (p ++ sep ++ join sep (p' :: ps)).
  apply trimmed_app; [done|]. by apply IH.
Qed.

Lemma strip_trimmed (s : text) : trimmed s -> strip s = s.
Proof.
  intros [(c & s1 & Hs1 & Hc) (s2 & d & Hs2 & Hd)]. unfold strip.
  assert (Hl : lstrip s = s) by (rewrite Hs1; cbn; by rewrite Hc).
  rewrite Hl. rewrite Hs2 at 1. rewrite reverse_snoc. cbn [lstrip].
  rewrite Hd. rewrite <- reverse_snoc, <- Hs2. apply reverse_involutive.
Qed.

Lemma trimmed_nonempty (s : text) : trimmed s -> s <> [].
Proof. by intros [(c & s' & -> & _) _]. Qed.

End PyFacts.

(** ** The text normalizer *)

Section CleanText.
Import Py DocumentProcessor Vocabulary.

Lemma is_line_trimmed (l : text) : is_line l -> trimmed l.
Proof.
  intros (ws & Hne & Hws & ->). apply join_trimmed; [done|].
  eapply Forall_impl; [exact Hws|]. apply word_trimmed.
Qed.

Lemma is_word_no_nl (w : text) : is_word w -> Forall (fun c => c <> NL) w.
Proof.
  intros [_ Hw]. eapply Forall_impl; [exact Hw|].
  intros c Hc ->. discriminate Hc.
Qed.

Lemma is_line_no_nl (l : text) : is_line l -> Forall (fun c => c <> NL) l.
Proof.
  intros (ws & _ & Hws & ->). clear -Hws.
  induction Hws as [|w ws Hw Hws IH]; [constructor|].
  destruct ws as [|w' ws]; [by apply is_word_no_nl|].
  change (join [SP] (w :: w' :: ws)) with (w ++ SP :: join [SP] (w' :: ws)).
  apply Forall_app. split; [by apply is_word_no_nl|].
  constructor; [discriminate|done].
Qed.

(** Every line the cleaning loop keeps is a cleaned line. *)
Lemma clean_lines_lines (lines : list text) : Forall is_line (clean_lines lines).
Proof.
  unfold clean_lines. induction lines as [|l lines IH]; [constructor|].
  cbn [flat_map]. apply Forall_app. split; [|done].
  destruct (strip (join [SP] (split l))) eqn:Hs; [constructor|].
  constructor; [|constructor]. exists (split l). split_and!; [|apply split_words|done].
  intros Hnil. rewrite Hnil in Hs. discriminate Hs.
Qed.

(** The cleaning loop leaves cleaned lines as they are. *)
Lemma clean_lines_fixed (lines : list text) :
  Forall is_line lines -> clean_lines lines = lines.
Proof.
  unfold clean_lines. induction 1 as [|l lines Hl Hlines IH]; [done|].
  cbn [flat_map]. rewrite IH. pose proof (is_line_trimmed _ Hl) as Ht.
  destruct Hl as (ws & Hne & Hws & ->). rewrite split_join by done.
  rewrite strip_trimmed by done.
  destruct (join [SP] ws) eqn:Hj; [|done].
  by apply trimmed_nonempty in Ht.
Qed.

Lemma split_on_no_sep (l s : text) :
  Forall (fun c => c <> NL) l ->
  split_on NL (l ++ NL :: s) = l :: split_on NL s.
Proof.
  induction 1 as [|c l Hc Hl IH]; [done|].
  cbn [app split_on]. rewrite IH.
  by destruct (N.eqb_spec c NL) as [Heq|_]; [congruence|].
Qed.

Lemma split_on_line (l : text) :
  Forall (fun c => c <> NL) l -> split_on NL l = [l].
Proof.
  induction 1 as [|c l Hc Hl IH]; [done|].
  cbn [split_on]. rewrite IH.
  by destruct (N.eqb_spec c NL) as [Heq|_]; [congruence|].
Qed.

Lemma split_on_join (lines : list text) :
  lines <> [] -> Forall is_line lines ->
  split_on NL (join [NL] lines) = lines.
Proof.
  intros Hne Hlines. induction Hlines as [|l lines Hl Hlines IH]; [done|].
  destruct lines as [|l' lines].
  - by apply split_on_line, is_line_no_nl.
  - change (join [NL] (l :: l' :: lines))
      with (l ++ NL :: join [NL] (l' :: lines)).
    rewrite split_on_no_sep by by apply is_line_no_nl.
    by rewrite IH.
Qed.

Lemma contains_no_nl (c : char) (s : text) :
  c <> NL -> contains [NL; NL; NL] (c :: s) = contains [NL; NL; NL] s.
Proof.
  intros Hc. change (contains [NL; NL; NL] (c :: s))
    with (startswith [NL; NL; NL] (c :: s) || contains [NL; NL; NL] s).
  cbn [startswith]. by destruct (N.eqb_spec NL c) as [Heq|_]; [congruence|].
Qed.

Lemma contains_nl_no_nl (c : char) (s : text) :
  c <> NL ->
  contains [NL; NL; NL] (NL :: c :: s) = contains [NL; NL; NL] s.
Proof.
  intros Hc. rewrite <- (contains_no_nl c s Hc).
  change (contains [NL; NL; NL] (NL :: c :: s))
    with (startswith [NL; NL; NL] (NL :: c :: s)
          || contains [NL; NL; NL] (c :: s)).
  cbn [startswith]. destruct (N.eqb_spec NL c) as [Heq|_]; [congruence|].
  by rewrite andb_false_r.
Qed.

Lemma contains_line (l s : text) :
  Forall (fun c => c <> NL) l ->
  contains [NL; NL; NL] (l ++ s) = contains [NL; NL; NL] s.
Proof.
  induction 1 as [|c l Hc Hl IH]; [done|].
  cbn [app]. by rewrite contains_no_nl.
Qed.

(** Cleaned lines joined by newlines hold no run of three newlines. *)
Lemma contains_join (lines : list text) :
  Forall is_line lines -> contains [NL; NL; NL] (join [NL] lines) = false.
Proof.
  induction 1 as [|l lines Hl Hlines IH]; [done|].
  destruct lines as [|l' lines].
  - cbn [join]. rewrite <- (app_nil_r l).
    by rewrite contains_line by by apply is_line_no_nl.
  - change (join [NL] (l :: l' :: lines))
      with (l ++ NL :: join [NL] (l' :: lines)).
    rewrite contains_line by by apply is_line_no_nl.
    inversion Hlines as [|? ? Hl' _]; subst.
    assert (Ht : trimmed (join [NL] (l' :: lines))).
    { apply join_trimmed; [done|].
      eapply Forall_impl; [exact Hlines|]. apply is_line_trimmed. }
    destruct Ht as [(c & s' & Hj & Hc) _]. rewrite Hj in IH |- *.
    assert (Hnl : c <> NL) by (intros Heq; rewrite Heq in Hc; discriminate Hc).
    rewrite contains_nl_no_nl by done. by rewrite <- (contains_no_nl c s' Hnl).
Qed.

Lemma collapse_newlines_none (fuel : nat) (s : text) :
  contains [NL; NL; NL] s = false -> collapse_newlines fuel s = Some s.
Proof. intros Hs. destruct fuel; cbn; by rewrite Hs. Qed.

(** What [_clean_text] returns: the cleaned lines of the text, joined
    by newlines. *)
Lemma clean_text_lines (t : text) :
  exists lines, Forall is_line lines /\ _clean_text t = Some (join [NL] lines).
Proof.
  destruct t as [|c t]; [by exists []|].
  exists (clean_lines (split_on NL (c :: t))).
  pose proof (clean_lines_lines (split_on NL (c :: t))) as Hl.
  split; [done|]. cbn [_clean_text].
  rewrite collapse_newlines_none by by apply contains_join.
  destruct (clean_lines (split_on NL (c :: t))) as [|l ls] eqn:Hls; [done|].
  rewrite strip_trimmed; [done|].
  apply join_trimmed; [done|].
  eapply Forall_impl; [exact Hl|]. apply is_line_trimmed.
Qed.

Lemma clean_text_fixed (lines : list text) :
  Forall is_line lines ->
  _clean_text (join [NL] lines) = Some (join [NL] lines).
Proof.
  intros Hl. destruct (join [NL] lines) as [|c s] eqn:Hj; [done|].
  assert (Hne : lines <> []) by (by intros ->).
  rewrite <- Hj. unfold _clean_text. rewrite Hj at 1. cbn zeta.
  rewrite split_on_join by done. rewrite clean_lines_fixed by done.
  rewrite collapse_newlines_none by by apply contains_join.
  rewrite strip_trimmed; [done|].
  apply join_trimmed; [done|].
  eapply Forall_impl; [exact Hl|]. apply is_line_trimmed.
Qed.

(** C6. The text normalizer returns on every text and is idempotent:
    [_clean_text] yields a result [y] for every input [x], and
    normalizing [y] again yields [y]. *)
Theorem clean_text_idempotent (x : text) :
  exists y, _clean_text x = Some y /\ _clean_text y = Some y.
Proof.
  destruct (clean_text_lines x) as (lines & Hl & Hx).
  exists (join [NL] lines). split; [done|]. by apply clean_text_fixed.
Qed.

End CleanText.

(** ** Python slices within range *)

Section SliceFacts.
Import Py.
Context {A : Type}.
Implicit Types l : list A.

Lemma slice_range (a b : Z) l :
  0 <= a -> a <= b -> b <= len l ->
  slice a b l = take (Z.to_nat (b - a)) (drop (Z.to_nat a) l).
Proof.
  intros Ha Hab Hb. unfold slice, clip.
  destruct (Z.ltb_spec a 0), (Z.ltb_spec b 0); try lia.
  by rewrite !Z.min_l by lia.
Qed.

Lemma slice_empty (a : Z) l : 0 <= a -> a <= len l -> slice a a l = [].
Proof.
  intros. rewrite slice_range by lia. by rewrite Z.sub_diag.
Qed.

Lemma slice_all l : slice 0 (len l) l = l.
Proof.
  pose proof (len_nonneg l). rewrite slice_range by lia.
  rewrite Z.sub_0_r. unfold len. rewrite Nat2Z.id. cbn [Z.to_nat drop].
  apply firstn_all.
Qed.

Lemma slice_app_l (a b : Z) l ext :
  0 <= a -> a <= b -> b <= len l -> slice a b (l ++ ext) = slice a b l.
Proof.
  intros Ha Hab Hb. pose proof (len_nonneg ext).
  rewrite !slice_range by (rewrite ?len_app; lia).
  unfold len in Hb. rewrite drop_app_le by lia.
  apply take_app_le. rewrite length_drop. lia.
Qed.

Lemma slice_suffix (pre cur : list A) :
  slice (len pre) (len (pre ++ cur)) (pre ++ cur) = cur.
Proof.
  pose proof (len_nonneg pre). pose proof (len_nonneg cur).
  rewrite slice_range by (rewrite ?len_app; lia).
  rewrite len_app. unfold len. rewrite Nat2Z.id.
  replace (Z.to_nat (Z.of_nat (length pre) + Z.of_nat (length cur)
                     - Z.of_nat (length pre))) with (length cur) by lia.
  rewrite drop_app_length. apply firstn_all.
Qed.

Lemma take_add_split (n1 n2 : nat) l :
  take (n1 + n2) l = take n1 l ++ take n2 (drop n1 l).
Proof.
  revert l. induction n1 as [|n1 IH]; intros [|x l]; cbn; try done.
  - by rewrite take_nil.
  - by rewrite IH.
Qed.

Lemma slice_app (a b c : Z) l :
  0 <= a -> a <= b -> b <= c -> c <= len l ->
  slice a b l ++ slice b c l = slice a c l.
Proof.
  intros Ha Hab Hbc Hc. rewrite !slice_range by lia.
  replace (Z.to_nat (c - a)) with (Z.to_nat (b - a) + Z.to_nat (c - b))%nat
    by lia.
  rewrite take_add_split, drop_drop.
  by replace (Z.to_nat a + Z.to_nat (b - a))%nat with (Z.to_nat b) by lia.
Qed.

Lemma drop_slice (d a b : Z) l :
  0 <= a -> 0 <= d -> a + d <= b -> b <= len l ->
  drop (Z.to_nat d) (slice a b l) = slice (a + d) b l.
Proof.
  intros Ha Hd Hab Hb. rewrite !slice_range by lia.
  rewrite skipn_firstn_comm, drop_drop.
  f_equal; [lia|]. f_equal. lia.
Qed.

Lemma take_slice (k a b : Z) l :
  0 <= a -> 0 <= k -> a + k <= b -> b <= len l ->
  take (Z.to_nat k) (slice a b l) = slice a (a + k) l.
Proof.
  intros Ha Hk Hab Hb. rewrite !slice_range by lia.
  rewrite take_take. f_equal. lia.
Qed.

Lemma slice_Forall (P : A -> Prop) (a b : Z) l :
  Forall P l -> Forall P (slice a b l).
Proof. intros Hl. unfold slice. by apply Forall_take, Forall_drop. Qed.

Lemma last_items_suffix (n : Z) l : exists pre, l = pre ++ last_items n l.
Proof.
  exists (take (length l - Z.to_nat n) l). unfold last_items.
  by rewrite take_drop.
Qed.

Lemma last_items_len (n : Z) l :
  0 < n -> len (last_items n l) = Z.min n (len l).
Proof.
  intros Hn. unfold last_items, len. rewrite length_drop. lia.
Qed.

End SliceFacts.

(** ** The word-based chunker *)

Section ChunkText.
Import Py DocumentProcessor Vocabulary.

Lemma chunk_ok_app (ws ext : list text) (c : chunk) :
  chunk_ok ws c -> chunk_ok (ws ++ ext) c.
Proof.
  intros [H1 H2 H3 H4 H5 H6]. pose proof (len_nonneg ext).
  split; try done.
  - rewrite len_app. lia.
  - rewrite slice_app_l by lia. done.
Qed.

Lemma make_chunk_ok (pre cur : list text) :
  cur <> [] -> chunk_ok (pre ++ cur) (make_chunk cur (len (pre ++ cur))).
Proof.
  intros Hne. pose proof (len_nonneg pre).
  assert (0 < len cur) by (destruct cur; [done|unfold len; cbn; lia]).
  split; cbn; rewrite ?len_app; try lia.
  replace (len pre + len cur - len cur) with (len pre) by lia.
  replace (len pre + len cur - 1 + 1) with (len (pre ++ cur))
    by (rewrite len_app; lia).
  by rewrite slice_suffix.
Qed.

Lemma chain_snoc (ov : Z) (l : list chunk) (p c : chunk) :
  chain ov (l ++ [p]) -> linked ov p c -> chain ov (l ++ [p; c]).
Proof.
  intros Hl Hpc. induction l as [|x l IH].
  - cbn. constructor; [done|constructor].
  - destruct l as [|y l].
    + cbn in *. inversion Hl; subst. constructor; [done|]. by apply IH.
    + cbn in *. inversion Hl; subst. constructor; [done|]. by apply IH.
Qed.

(** Growing the last chunk of a chain keeps the chain. *)
Lemma chain_grow_last (ov : Z) (l : list chunk) (c c' : chunk) :
  chain ov (l ++ [c]) -> start_word c' = start_word c ->
  end_word c <= end_word c' -> chain ov (l ++ [c']).
Proof.
  intros Hl Hs He. induction l as [|x l IH]; [constructor|].
  destruct l as [|y l].
  - cbn in *. inversion Hl as [| |? ? ? [Hx1 Hx2] _]; subst.
    constructor; [|constructor]. split; [by rewrite Hs|lia].
  - cbn in *. inversion Hl; subst. constructor; [done|]. by apply IH.
Qed.

Lemma chain_app_inv (ov : Z) (l1 l2 : list chunk) :
  chain ov (l1 ++ l2) -> chain ov l2.
Proof.
  induction l1 as [|x l1 IH]; [done|]. intros H. apply IH.
  destruct (l1 ++ l2) eqn:E; [constructor|]. cbn in H. rewrite E in H.
  by inversion H.
Qed.

Lemma shared_make_chunk (ov i : Z) (cur : list text) :
  shared ov (make_chunk cur i)
  = len (if ov >? 0 then last_items ov cur else []).
Proof.
  unfold shared. cbn [word_count make_chunk]. pose proof (len_nonneg cur).
  destruct (Z.gtb_spec ov 0).
  - rewrite last_items_len by lia. lia.
  - unfold len at 2. cbn. lia.
Qed.

(** One round of the loop keeps the invariant. *)
Lemma chunk_step_inv (cs ov : Z) (done : list text) (st : chunker)
    (w : text) :
  chunker_inv ov done st ->
  chunker_inv ov (done ++ [w]) (chunk_step cs ov st (len done) w).
Proof.
  destruct st as [chs cur sz]. unfold chunker_inv, pending, chunk_step.
  cbn [chunks current_chunk current_size].
  intros [(-> & -> & ->)|(Hne & (pre & Hpre) & Hch)].
  - (* the first word *)
    right. cbn [is_nil negb]. rewrite andb_false_r.
    cbn [chunks current_chunk app].
    split_and!; [done|by exists []|].
    right. split_and!.
    + repeat constructor; cbn; try lia; done.
    + constructor.
    + eexists. split; [done|]. cbn. lia.
    + eexists. split; [done|]. cbn. lia.
  - destruct Hch as [[Habs _]|(Hok & Hchain & (c0 & Hhd & Hc0) & _)].
    { by destruct chs. }
    pose proof (len_nonneg done). pose proof (len_nonneg pre).
    assert (Hw1 : len [w] = 1) by reflexivity.
    assert (Hlen : len (done ++ [w]) = len done + 1)
      by (rewrite len_app; lia).
    right.
    destruct ((sz + (len w + 1) >? cs) && negb (is_nil cur)) eqn:Hemit.
    + (* a chunk is emitted and the next one is seeded *)
      set (ovw := if ov >? 0 then last_items ov cur else []).
      cbn [chunks current_chunk].
      assert (Hsuf : exists pre', cur = pre' ++ ovw).
      { subst ovw. destruct (ov >? 0); [apply last_items_suffix|].
        exists cur. by rewrite app_nil_r. }
      destruct Hsuf as (pre' & Hpre').
      assert (Hdone' : done ++ [w] = (pre ++ pre') ++ (ovw ++ [w])).
      { rewrite Hpre. rewrite Hpre' at 1. by rewrite <- !app_assoc. }
      split_and!; [by destruct ovw|by exists (pre ++ pre')|].
      right. split_and!.
      * apply Forall_app. split.
        { eapply Forall_impl; [exact Hok|]. intros c. apply chunk_ok_app. }
        constructor; [|constructor]. rewrite Hdone'.
        apply make_chunk_ok. by destruct ovw.
      * rewrite <- app_assoc. cbn [app]. apply chain_snoc; [done|].
        split.
        { rewrite shared_make_chunk. fold ovw.
          cbn [start_word end_word make_chunk].
          rewrite !len_app. lia. }
        cbn. lia.
      * exists c0. split; [|done]. by destruct chs.
      * eexists. split; [apply last_snoc|]. cbn. lia.
    + (* the word joins the chunk in progress *)
      cbn [chunks current_chunk].
      assert (Hdone' : done ++ [w] = pre ++ (cur ++ [w])).
      { rewrite Hpre. by rewrite <- app_assoc. }
      split_and!; [by destruct cur|by exists pre|].
      right. split_and!.
      * apply Forall_app. apply Forall_app in Hok as [Hok _]. split.
        { eapply Forall_impl; [exact Hok|]. intros c. apply chunk_ok_app. }
        constructor; [|constructor]. rewrite Hdone'.
        apply make_chunk_ok. by destruct cur.
      * eapply chain_grow_last; [exact Hchain| |].
        { cbn [start_word make_chunk]. rewrite !len_app. lia. }
        cbn. lia.
      * destruct chs as [|x l]; cbn in *.
        { eexists. split; [done|]. injection Hhd as <-.
          cbn [start_word make_chunk] in *. rewrite !len_app. lia. }
        by exists c0.
      * eexists. split; [apply last_snoc|]. cbn. lia.
Qed.

Lemma chunk_loop_inv (cs ov : Z) (rest done : list text) (st : chunker) :
  chunker_inv ov done st ->
  chunker_inv ov (done ++ rest) (chunk_loop cs ov st (len done) rest).
Proof.
  revert done st. induction rest as [|w rest IH]; intros done st Hinv.
  - by rewrite app_nil_r.
  - cbn [chunk_loop].
    replace (len done + 1) with (len (done ++ [w]))
      by (rewrite len_app; unfold len; cbn; lia).
    replace (done ++ w :: rest) with ((done ++ [w]) ++ rest)
      by (by rewrite <- app_assoc).
    apply IH. by apply chunk_step_inv.
Qed.

(** The chunks [_chunk_text] returns are a chunking of the words of
    the text. *)
Lemma chunk_text_chunking (t : text) (cs ov : Z) :
  chunking ov (split t) (_chunk_text t cs ov).
Proof.
  destruct t as [|c t]; [by left|].
  unfold _chunk_text.
  pose proof (chunk_loop_inv cs ov (split (c :: t)) [] (Chunker [] [] 0))
    as Hinv.
  cbn [app] in Hinv. change (len []) with 0 in Hinv.
  set (st := chunk_loop _ _ _ _ _) in *.
  destruct Hinv as [(Hw & Hc & Hcur)|(Hne & _ & Hch)]; [by left| |].
  - rewrite Hcur, Hc. cbn [is_nil]. by left.
  - destruct (current_chunk st) eqn:Hcur; [done|]. cbn [is_nil].
    rewrite <- Hcur. exact Hch.
Qed.

End ChunkText.

(** ** What the chunks of a text record *)

Section ChunkTextClaims.
Import Py DocumentProcessor Vocabulary.

Lemma chunk_words_ok (ws : list text) (c : chunk) :
  Forall is_word ws -> chunk_ok ws c ->
  chunk_words c = slice (start_word c) (end_word c + 1) ws.
Proof.
  intros Hws Hc. unfold chunk_words. rewrite (ok_text _ _ Hc).
  apply split_join. by apply slice_Forall.
Qed.

Lemma chain_lookup (ov : Z) (cs : list chunk) (i : nat) (p c : chunk) :
  chain ov cs -> cs !! i = Some p -> cs !! S i = Some c -> linked ov p c.
Proof.
  intros Hch. revert i. induction Hch as [|x|x y l Hxy Hch IH]; intros i Hp Hc.
  - done.
  - by destruct i.
  - destruct i as [|i]; cbn in *; [congruence|]. by eapply IH.
Qed.

Lemma chain_last_end (ov : Z) (l : list chunk) (c e : chunk) :
  chain ov (c :: l) -> last (c :: l) = Some e -> end_word c <= end_word e.
Proof.
  revert c. induction l as [|x l IH]; intros c Hch Hl.
  - cbn in Hl. injection Hl as ->. lia.
  - inversion Hch as [| |? ? ? [_ Hlt] Hch']; subst.
    rewrite last_cons_cons in Hl. specialize (IH x Hch' Hl). lia.
Qed.

Lemma shared_bounds (ov : Z) (ws : list text) (p : chunk) :
  chunk_ok ws p -> 0 <= shared ov p <= word_count p.
Proof. intros [? ? ? ? Hc ?]. unfold shared. lia. Qed.

Lemma reconstruct_after_slice (ov : Z) (ws : list text) (l : list chunk)
    (p e : chunk) :
  Forall is_word ws -> Forall (chunk_ok ws) (p :: l) -> chain ov (p :: l) ->
  last (p :: l) = Some e ->
  reconstruct_after p l = slice (end_word p + 1) (end_word e + 1) ws.
Proof.
  intros Hws. revert p. induction l as [|c l IH]; intros p Hok Hch Hl.
  - cbn in Hl. injection Hl as ->. apply Forall_cons in Hok as [Hp _].
    destruct Hp. cbn. by rewrite slice_empty by lia.
  - apply Forall_cons in Hok as [Hp Hok'].
    inversion Hch as [| |? ? ? [Hs Hlt] Hch']; subst.
    rewrite last_cons_cons in Hl.
    pose proof (chain_last_end _ _ _ _ Hch' Hl) as Hce.
    assert (He : chunk_ok ws e).
    { rewrite Forall_forall in Hok'. apply Hok'. by apply last_Some_elem_of. }
    pose proof (Forall_inv Hok') as Hc.
    pose proof (shared_bounds ov ws p Hp) as Hsh.
    cbn [reconstruct_after]. rewrite (IH c) by done.
    rewrite (chunk_words_ok ws c) by done. unfold overlap_prefix.
    destruct Hp, Hc, He.
    rewrite drop_slice by lia.
    replace (start_word c + (end_word p + 1 - start_word c))
      with (end_word p + 1) by lia.
    apply slice_app; lia.
Qed.

(** C5. For every text, chunk size and overlap (so for those with
    [overlap < chunk_size]), the chunks of the word-based chunker give
    the word sequence of the text back: keep the words of the first
    chunk, drop from every later chunk the leading words it shares
    with its predecessor, and concatenate. *)
Theorem chunk_text_reconstruct (t : text) (chunk_size overlap : Z) :
  reconstruct (_chunk_text t chunk_size overlap) = split t.
Proof.
  pose proof (split_words t) as Hws.
  destruct (chunk_text_chunking t chunk_size overlap)
    as [[-> ->]|(Hok & Hch & (c0 & Hhd & Hc0) & (e & Hl & He))]; [done|].
  destruct (_chunk_text t chunk_size overlap) as [|c l]; [done|].
  cbn in Hhd. injection Hhd as <-.
  assert (Hee : chunk_ok (split t) e).
  { rewrite Forall_forall in Hok. apply Hok. by apply last_Some_elem_of. }
  pose proof (chain_last_end _ _ _ _ Hch Hl) as Hce.
  pose proof (Forall_inv Hok) as Hc.
  cbn [reconstruct].
  rewrite (reconstruct_after_slice overlap (split t) l c e) by done.
  rewrite (chunk_words_ok (split t) c) by done.
  destruct Hc, Hee. rewrite slice_app by lia.
  rewrite Hc0, He. replace (len (split t) - 1 + 1) with (len (split t)) by lia.
  apply slice_all.
Qed.

(** C9, as the code has it. For every text, chunk size and overlap:
    every chunk records the absolute indices of its first and last
    word in the word sequence of the text, and its text is those words
    joined by single spaces; a chunk after the first starts where its
    predecessor ended, less the words handed over, which are the last
    [min(max(overlap, 0), word_count)] words of the predecessor: the
    configured overlap whenever the predecessor has that many words.
    Start offsets never decrease and end offsets grow strictly; start
    offsets grow strictly from a chunk with more than [overlap]
    words. *)
Theorem chunk_text_offsets (t : text) (chunk_size overlap : Z) :
  let ws := split t in
  let cs := _chunk_text t chunk_size overlap in
  (forall c, c ∈ cs ->
     0 <= start_word c <= end_word c /\ end_word c < len ws
     /\ chunk_text_of c = join [SP] (slice (start_word c) (end_word c + 1) ws)
     /\ word_count c = end_word c - start_word c + 1)
  /\ (forall i p c, cs !! i = Some p -> cs !! S i = Some c ->
        let k := Z.min (Z.max overlap 0) (word_count p) in
        start_word c = end_word p + 1 - k
        /\ take (Z.to_nat k) (chunk_words c)
           = drop (Z.to_nat (word_count p - k)) (chunk_words p)
        /\ start_word p <= start_word c
        /\ (overlap < word_count p -> start_word p < start_word c)
        /\ (0 <= overlap <= word_count p -> k = overlap)
        /\ end_word p < end_word c).
Proof.
  intros ws cs. pose proof (split_words t) as Hws.
  destruct (chunk_text_chunking t chunk_size overlap)
    as [[Hnil _]|(Hok & Hch & _ & _)]; fold cs in Hnil || fold cs in Hok, Hch.
  { rewrite Hnil. split; [by intros c Hc; apply elem_of_nil in Hc|].
    by intros i p c Hp. }
  rewrite Forall_forall in Hok. split.
  - intros c Hc. destruct (Hok c Hc). by split_and!.
  - intros i p c Hp Hc k.
    destruct (chain_lookup _ _ _ _ _ Hch Hp Hc) as [Hs Hlt].
    assert (Hpok : chunk_ok ws p) by (eapply Hok, list_elem_of_lookup_2, Hp).
    assert (Hcok : chunk_ok ws c) by (eapply Hok, list_elem_of_lookup_2, Hc).
    pose proof (shared_bounds overlap ws p Hpok) as Hsh.
    fold k in Hs, Hsh. unfold shared in Hs, Hsh. fold k in Hs, Hsh.
    rewrite (chunk_words_ok ws c), (chunk_words_ok ws p) by done.
    destruct Hpok as [? ? ? _ Hwc _], Hcok as [? ? ? _ _ _].
    split_and!; try lia.
    rewrite take_slice, drop_slice by lia. f_equal; lia.
Qed.

Lemma chunk_text_starts_repeat :
  ~ starts_strictly_increasing (_chunk_text (lit "aaaa bbbb cccc") 5 3).
Proof.
  intros H.
  specialize (H 0%nat _ _ eq_refl eq_refl). vm_compute in H. discriminate H.
Qed.

Lemma chunk_text_overlap_clipped :
  ~ overlaps_exactly 3 (_chunk_text (lit "aaaa bbbb cccc") 5 3).
Proof.
  intros H.
  destruct (H 0%nat _ _ eq_refl eq_refl) as [[_ Hle] _].
  vm_compute in Hle. by apply Hle.
Qed.

(** C9, where the claim fails: with a chunk size of 5 characters and
    an overlap of 3 words, the three chunks of a text of three
    four-letter words all start at word 0: the start offsets do not
    grow, and the second chunk cannot begin with three words of the
    first, which has a single word. *)
Lemma chunk_text_offsets_fail :
  let cs := _chunk_text (lit "aaaa bbbb cccc") 5 3 in
  map start_word cs = [0; 0; 0]
  /\ map word_count cs = [1; 2; 3]
  /\ ~ starts_strictly_increasing cs
  /\ ~ overlaps_exactly 3 cs.
Proof.
  cbv zeta. split_and!; [by vm_compute|by vm_compute| |].
  - apply chunk_text_starts_repeat.
  - apply chunk_text_overlap_clipped.
Qed.

(** Dropping the configured number of words, instead of the words a
    chunk shares with its predecessor, loses words when a chunk has
    fewer words than the overlap. *)
Lemma reconstruct_fixed_short :
  reconstruct_fixed 3 (_chunk_text (lit "aaaa bbbb cccc") 5 3) = [lit "aaaa"]
  /\ reconstruct (_chunk_text (lit "aaaa bbbb cccc") 5 3)
     = [lit "aaaa"; lit "bbbb"; lit "cccc"].
Proof. by vm_compute. Qed.

(** The word-based chunker has no chunk for the empty text. *)
Lemma chunk_text_empty (chunk_size overlap : Z) :
  _chunk_text [] chunk_size overlap = [].
Proof. reflexivity. Qed.

End ChunkTextClaims.

(** ** The order of Python floats *)

Section FloatOrder.
Import VectorService.

Lemma SFcompare_antisym (a b : SpecFloat.spec_float) :
  SpecFloat.SFcompare b a = option_map CompOpp (SpecFloat.SFcompare a b).
Proof.
  destruct a as [s1|s1| |s1 m1 e1], b as [s2|s2| |s2 m2 e2]; cbn;
    try destruct s1; try destruct s2; try reflexivity.
  - rewrite (Z.compare_antisym e1 e2).
    destruct (e1 ?= e2)%Z; cbn; try reflexivity.
    pose proof (Pos.compare_cont_antisym m1 m2 Eq) as H. cbn in H.
    by rewrite <- H.
  - rewrite (Z.compare_antisym e1 e2).
    destruct (e1 ?= e2)%Z; cbn; try reflexivity.
    pose proof (Pos.compare_cont_antisym m1 m2 Eq) as H. cbn in H.
    by rewrite <- H.
Qed.

Lemma SFleb_not_nan (a b : SpecFloat.spec_float) :
  SpecFloat.SFleb a b = true ->
  exists c, SpecFloat.SFcompare b b = Some c.
Proof.
  unfold SpecFloat.SFleb.
  destruct a as [s1|s1| |s1 m1 e1], b as [s2|s2| |s2 m2 e2]; cbn;
    try discriminate; eauto.
Qed.

Lemma SFcompare_defined (a b : SpecFloat.spec_float) (ca cb : comparison) :
  SpecFloat.SFcompare a a = Some ca -> SpecFloat.SFcompare b b = Some cb ->
  exists c, SpecFloat.SFcompare a b = Some c.
Proof.
  destruct a as [s1|s1| |s1 m1 e1], b as [s2|s2| |s2 m2 e2]; cbn;
    try discriminate; eauto.
Qed.

(** A float that is at least some threshold is no NaN, and two such
    floats are comparable: if [x < y] fails then [x >= y]. *)
Lemma geb_total (x y t : float) :
  geb x t = true -> geb y t = true ->
  PrimFloat.ltb x y = false -> geb x y = true.
Proof.
  unfold geb. rewrite !leb_spec, ltb_spec. intros Hx Hy Hlt.
  apply SFleb_not_nan in Hx as [cx Hx]. apply SFleb_not_nan in Hy as [cy Hy].
  destruct (SFcompare_defined _ _ _ _ Hx Hy) as [c Hc].
  unfold SpecFloat.SFltb in Hlt. unfold SpecFloat.SFleb.
  rewrite SFcompare_antisym, Hc. rewrite Hc in Hlt.
  by destruct c.
Qed.

Lemma ltb_geb (x y : float) : PrimFloat.ltb x y = true -> geb y x = true.
Proof.
  unfold geb. rewrite leb_spec, ltb_spec.
  unfold SpecFloat.SFltb, SpecFloat.SFleb.
  by destruct (SpecFloat.SFcompare _ _) as [[]|].
Qed.

End FloatOrder.

(** ** Similarity search and the relevance gate *)

Section RetrievalClaims.
Import Py VectorService Vocabulary.

Variable similarity : embedding -> embedding -> float.

Lemma relevant_chunks_hits (q : embedding) (thr : float) (rows : list row) :
  Forall (fun s =>
            geb (similarity_score s) thr = true
            /\ scored_row s ∈ rows
            /\ exists e, row_embedding (scored_row s) = Some e
                         /\ similarity_score s = similarity q e)
    (relevant_chunks similarity q thr rows).
Proof.
  induction rows as [|r rows IH]; [constructor|].
  assert (IH' : Forall (fun s =>
            geb (similarity_score s) thr = true
            /\ scored_row s ∈ r :: rows
            /\ exists e, row_embedding (scored_row s) = Some e
                         /\ similarity_score s = similarity q e)
    (relevant_chunks similarity q thr rows)).
  { eapply Forall_impl; [exact IH|]. intros s (H1 & H2 & H3).
    split_and!; [done| |done]. by right. }
  cbn [relevant_chunks].
  destruct (row_embedding r) as [[|x e]|] eqn:He; try done.
  destruct (geb (similarity q (x :: e)) thr) eqn:Hge; [|done].
  constructor; [|done]. cbn. split_and!; [done|by left|by eexists].
Qed.

Lemma insert_desc_Forall (P : scored -> Prop) (x : scored) (l : list scored) :
  P x -> Forall P l -> Forall P (insert_desc x l).
Proof.
  intros Hx. induction 1 as [|y l Hy Hl IH]; cbn.
  - by repeat constructor.
  - destruct (PrimFloat.ltb _ _); by repeat constructor.
Qed.

Lemma sort_desc_Forall (P : scored -> Prop) (l : list scored) :
  Forall P l -> Forall P (sort_desc l).
Proof.
  induction 1 as [|x l Hx Hl IH]; [constructor|].
  cbn. by apply insert_desc_Forall.
Qed.

Lemma insert_desc_HdRel (x y : scored) (l : list scored) :
  HdRel score_ge y l -> score_ge y x -> HdRel score_ge y (insert_desc x l).
Proof.
  intros Hl Hyx. destruct l as [|z l]; cbn; [by constructor|].
  destruct (PrimFloat.ltb _ _); constructor; [|done]. by inversion Hl.
Qed.

Lemma insert_desc_Sorted (thr : float) (x : scored) (l : list scored) :
  geb (similarity_score x) thr = true ->
  Forall (fun y => geb (similarity_score y) thr = true) l ->
  Sorted score_ge l -> Sorted score_ge (insert_desc x l).
Proof.
  intros Hx Hl Hs. induction Hs as [|y l Hs IH Hd]; cbn.
  - by repeat constructor.
  - apply Forall_cons in Hl as [Hy Hl].
    destruct (PrimFloat.ltb (similarity_score x) (similarity_score y)) eqn:Hlt.
    + constructor; [by apply IH|].
      apply insert_desc_HdRel; [done|]. by apply ltb_geb.
    + constructor; [by constructor|]. constructor.
      by apply (geb_total _ _ thr).
Qed.

Lemma sort_desc_Sorted (thr : float) (l : list scored) :
  Forall (fun y => geb (similarity_score y) thr = true) l ->
  Sorted score_ge (sort_desc l).
Proof.
  induction 1 as [|x l Hx Hl IH]; [constructor|].
  cbn. apply (insert_desc_Sorted thr); [done| |done].
  by apply sort_desc_Forall.
Qed.

Lemma Sorted_take {A : Type} (R : A -> A -> Prop) (n : nat) (l : list A) :
  Sorted R l -> Sorted R (take n l).
Proof.
  intros Hs. revert n. induction Hs as [|x l Hs IH Hd]; intros [|n]; cbn;
    try constructor; [done|].
  destruct Hd as [|y l Hxy]; destruct n; cbn; by constructor.
Qed.

Lemma slice_to_len {A : Type} (m : Z) (l : list A) :
  0 <= m -> len (slice_to m l) <= m.
Proof.
  intros Hm. unfold slice_to, clip, len.
  destruct (Z.ltb_spec m 0); [lia|]. rewrite length_take. lia.
Qed.

(** C3, as the code has it. For every query embedding, candidate
    rows, similarity threshold and non-negative [max_results], the
    search returns only candidates whose similarity to the query is at
    least the threshold, sorted by non-increasing similarity, and at
    most [max_results] of them. *)
Theorem search_results (query_embedding : option embedding)
    (data : option (list row)) (similarity_threshold : float)
    (max_results : Z) :
  0 <= max_results ->
  let r := search_knowledge_base similarity query_embedding data
             similarity_threshold max_results in
  Forall (is_hit similarity query_embedding data similarity_threshold) r
  /\ Sorted score_ge r
  /\ len r <= max_results.
Proof.
  intros Hm r. split_and!; [| |].
  - subst r. unfold search_knowledge_base.
    destruct query_embedding as [[|x q]|]; try constructor.
    destruct data as [[|r0 rows]|]; try constructor.
    unfold slice_to. apply Forall_take, sort_desc_Forall.
    eapply Forall_impl; [apply relevant_chunks_hits|].
    intros s (H1 & H2 & e & H3 & H4). split; [done|].
    by exists (x :: q), (r0 :: rows), e.
  - subst r. unfold search_knowledge_base.
    destruct query_embedding as [[|x q]|]; try constructor.
    destruct data as [[|r0 rows]|]; try constructor.
    unfold slice_to. apply Sorted_take.
    apply (sort_desc_Sorted similarity_threshold).
    eapply Forall_impl; [apply relevant_chunks_hits|]. by intros s [H1 _].
  - subst r. unfold search_knowledge_base.
    destruct query_embedding as [[|x q]|]; try (unfold len; cbn; lia).
    destruct data as [[|r0 rows]|]; try (unfold len; cbn; lia).
    by apply slice_to_len.
Qed.

(** C4, as the code has it. When no candidate reaches the relevance
    threshold, the gate answers [(False, 0.0)]: the score is 0.0, not
    the best similarity found. *)
Theorem is_query_relevant_below (query_embedding : option embedding)
    (data : option (list row)) (relevance_threshold : float) :
  (forall q rows, query_embedding = Some q -> data = Some rows ->
     Forall (fun s => geb s relevance_threshold = false)
       (candidate_scores similarity q rows)) ->
  is_query_relevant similarity query_embedding data relevance_threshold
  = (false, 0%float).
Proof.
  intros Hlow. unfold is_query_relevant, search_knowledge_base.
  destruct query_embedding as [[|x q]|]; try done.
  destruct data as [[|r0 rows]|]; try done.
  specialize (Hlow _ _ eq_refl eq_refl).
  assert (Hnone : relevant_chunks similarity (x :: q) relevance_threshold
                    (r0 :: rows) = []).
  { revert Hlow. unfold candidate_scores. generalize (r0 :: rows). intros l.
    induction l as [|r l IH]; [done|]. cbn.
    destruct (row_embedding r) as [[|y e]|]; try done.
    intros Hl. apply Forall_cons in Hl as [Hr Hl].
    rewrite Hr. by apply IH. }
  by rewrite Hnone.
Qed.

End RetrievalClaims.

Section RetrievalExamples.
Import Py VectorService Vocabulary.

Lemma search_results_witness :
  0 <= 2
  /\ (let r := search_knowledge_base _calculate_cosine_similarity
                 (Some sample_query) (Some sample_rows) 0.5%float 2 in
      Forall (is_hit _calculate_cosine_similarity (Some sample_query)
                (Some sample_rows) 0.5%float) r
      /\ Sorted score_ge r
      /\ len r <= 2).
Proof.
  split; [lia|].
  apply (search_results _calculate_cosine_similarity (Some sample_query)
           (Some sample_rows) 0.5%float 2).
  lia.
Defined.

(** C3, where the claim fails: with [max_results = -1] the slice
    [[:max_results]] drops the last of the three hits and returns two
    entries. *)
Lemma search_negative_limit :
  let r := search_knowledge_base _calculate_cosine_similarity
             (Some sample_query) (Some sample_rows) 0.5%float (-1) in
  len r = 2
  /\ ~ (Forall (is_hit _calculate_cosine_similarity (Some sample_query)
                  (Some sample_rows) 0.5%float) r
        /\ Sorted score_ge r
        /\ len r <= -1).
Proof.
  assert (Hlen : len (search_knowledge_base _calculate_cosine_similarity
                        (Some sample_query) (Some sample_rows) 0.5%float (-1))
                 = 2) by (vm_compute; reflexivity).
  cbv zeta. split; [exact Hlen|]. intros (_ & _ & Hle). lia.
Qed.

Lemma is_query_relevant_below_witness :
  (forall q rows, Some sample_query = Some q -> Some near_miss_rows = Some rows ->
     Forall (fun s => geb s 0.96875%float = false)
       (candidate_scores _calculate_cosine_similarity q rows))
  /\ is_query_relevant _calculate_cosine_similarity (Some sample_query)
       (Some near_miss_rows) 0.96875%float = (false, 0%float).
Proof.
  assert (Hlow : forall q rows,
             Some sample_query = Some q -> Some near_miss_rows = Some rows ->
             Forall (fun s => geb s 0.96875%float = false)
               (candidate_scores _calculate_cosine_similarity q rows)).
  { intros q rows [= <-] [= <-]. vm_compute. repeat constructor. }
  split; [exact Hlow|].
  exact (is_query_relevant_below _calculate_cosine_similarity
           (Some sample_query) (Some near_miss_rows) 0.96875%float Hlow).
Defined.

(** C4, where the claim fails: the one candidate has the similarity
    24/25 to the query, below the threshold 31/32; the gate answers
    [(False, 0.0)], not [(False, 24/25)]. *)
Lemma is_query_relevant_hides_best :
  exists s,
    best_score _calculate_cosine_similarity sample_query near_miss_rows
    = Some s
    /\ geb s 0.96875%float = false
    /\ is_query_relevant _calculate_cosine_similarity (Some sample_query)
         (Some near_miss_rows) 0.96875%float
       = (false, 0%float)
    /\ is_query_relevant _calculate_cosine_similarity (Some sample_query)
         (Some near_miss_rows) 0.96875%float
       <> (false, s).
Proof.
  exists (24 / 25)%float. split_and!.
  - vm_compute. reflexivity.
  - vm_compute. reflexivity.
  - vm_compute. reflexivity.
  - intros H.
    apply (f_equal (fun p => PrimFloat.eqb (snd p) 0%float)) in H.
    vm_compute in H. discriminate H.
Qed.

End RetrievalExamples.

(** ** The character-window chunker *)

Section ChunkDocument.
Import Py VectorService Vocabulary.

Lemma stalling_len : len stalling_content = 202.
Proof. reflexivity. Qed.

Lemma stalling_first_round :
  chunk_document_round stalling_content 100 50 0 []
  = Continue (-48) [lit "a."].
Proof. vm_compute. reflexivity. Qed.

(** From the start offset -48 a round finds the same sentence end
    again and leaves the state as it was. *)
Lemma stalling_round :
  chunk_document_round stalling_content 100 50 (-48) [lit "a."]
  = Continue (-48) [lit "a."].
Proof. vm_compute. reflexivity. Qed.

Lemma stalling_loop (fuel : nat) :
  chunk_document_loop fuel stalling_content 100 50 (-48) [lit "a."]
  = OutOfFuel.
Proof.
  induction fuel as [|fuel IH]; [done|].
  cbn [chunk_document_loop]. rewrite stalling_len, stalling_round.
  exact IH.
Qed.

(** C7, where the code falls short: with [chunk_size = 100] and
    [overlap = 50], which is [chunk_size / 2], the loop of
    [chunk_document] never ends on a text that begins with a
    two-character sentence followed by 200 letters: no number of
    rounds suffices. *)
Theorem chunk_document_stalls :
  50 <= 100 / 2
  /\ forall fuel, chunk_document fuel stalling_content 100 50 = OutOfFuel.
Proof.
  split; [done|]. intros fuel. unfold chunk_document.
  rewrite stalling_len. change (202 <=? 100) with false. cbv iota.
  destruct fuel as [|fuel]; [done|].
  cbn [chunk_document_loop]. rewrite stalling_len, stalling_first_round.
  apply stalling_loop.
Qed.

Lemma item_in_range {A : Type} (l : list A) (i : Z) :
  0 <= i -> i < len l -> exists x, item l i = Some x.
Proof.
  intros H0 Hi. unfold item.
  destruct (Z.leb_spec 0 i), (Z.ltb_spec i (len l)); try lia. cbn.
  apply lookup_lt_is_Some. unfold len in Hi. lia.
Qed.

(** A scan over indices of the text does not raise, and a sentence
    end it finds lies in the range scanned. *)
Lemma find_sentence_end_range (content : text) (count : nat) (i : Z) :
  0 <= i - Z.of_nat count + 1 -> i < len content ->
  match find_sentence_end content i count with
  | Found e => i - Z.of_nat count + 2 <= e <= i + 1
  | NotFound => True
  | IndexError => False
  end.
Proof.
  revert i. induction count as [|k IH]; intros i Hlo Hhi; [done|].
  cbn [find_sentence_end].
  destruct (item_in_range content i) as [c ->]; [lia|lia|].
  destruct (is_sentence_end c); [lia|].
  assert (Hlo' : 0 <= i - 1 - Z.of_nat k + 1) by lia.
  assert (Hhi' : i - 1 < len content) by lia.
  specialize (IH (i - 1) Hlo' Hhi').
  destruct (find_sentence_end content (i - 1) k); [lia|done|done].
Qed.

(** When the overlap is at least 99 characters smaller than the chunk
    size, a round moves the start forward. *)
Lemma chunk_document_round_progress (content : text) (chunk_size overlap : Z)
    (start : Z) (chunks : list text) :
  0 <= overlap -> overlap + 98 < chunk_size ->
  0 <= start -> start < len content ->
  match chunk_document_round content chunk_size overlap start chunks with
  | Continue start' _ => start < start'
  | Break _ => True
  | RoundRaised => False
  end.
Proof.
  intros Hov Hcs H0 Hlen. unfold chunk_document_round.
  destruct (Z.ltb_spec (start + chunk_size) (len content)) as [Hend|Hend].
  - pose proof (find_sentence_end_range content
                  (Z.to_nat (start + chunk_size - 1
                             - Z.max start (start + chunk_size - 100)))
                  (start + chunk_size - 1)) as Hscan.
    destruct (find_sentence_end _ _ _) as [e| |].
    + destruct (Z.geb_spec (e - overlap) (len content)); [done|]. lia.
    + destruct (Z.geb_spec (start + chunk_size - overlap) (len content));
        [done|]. lia.
    + apply Hscan; lia.
  - destruct (Z.geb_spec (start + chunk_size - overlap) (len content));
      [done|]. lia.
Qed.

Lemma chunk_document_loop_returns (content : text) (chunk_size overlap : Z)
    (n : nat) (start : Z) (chunks : list text) :
  0 <= overlap -> overlap + 98 < chunk_size ->
  0 <= start -> len content - start <= Z.of_nat n ->
  exists chunks',
    chunk_document_loop (S n) content chunk_size overlap start chunks
    = Returned chunks'.
Proof.
  intros Hov Hcs. revert start chunks.
  induction n as [|n IH]; intros start chunks H0 Hn.
  - cbn. destruct (Z.ltb_spec start (len content)); [lia|]. by eexists.
  - cbn [chunk_document_loop].
    destruct (Z.ltb_spec start (len content)) as [Hlt|]; [|by eexists].
    pose proof (chunk_document_round_progress content chunk_size overlap
                  start chunks Hov Hcs H0 Hlt) as Hp.
    destruct (chunk_document_round _ _ _ _ _) as [start' chunks'|chunks'|];
      [|by eexists|done].
    apply IH; lia.
Qed.

(** With an overlap that is at least 99 characters smaller than the
    chunk size, as with the defaults 1000 and 200, [chunk_document]
    returns, after at most [len(content)] rounds. *)
Lemma chunk_document_returns (content : text) (chunk_size overlap : Z) :
  0 <= overlap -> overlap + 98 < chunk_size ->
  exists chunks,
    chunk_document (S (length content)) content chunk_size overlap
    = Returned chunks.
Proof.
  intros Hov Hcs. unfold chunk_document.
  destruct (len content <=? chunk_size); [by eexists|].
  apply chunk_document_loop_returns; [done|done|done|]. unfold len. lia.
Qed.

Lemma chunk_document_short (fuel : nat) (content : text)
    (chunk_size overlap : Z) :
  len content <= chunk_size ->
  chunk_document fuel content chunk_size overlap = Returned [content].
Proof.
  intros Hle. unfold chunk_document.
  by destruct (Z.leb_spec (len content) chunk_size); [|lia].
Qed.

(** C10, where the code falls short: for the empty text, and the
    default [chunk_size] and [overlap], [chunk_document] returns one
    chunk, the empty string, where the word-based chunker returns no
    chunk. *)
Theorem chunk_document_empty (fuel : nat) :
  chunk_document fuel [] 1000 200 = Returned [[]]
  /\ DocumentProcessor._chunk_text [] 1000 200 = [].
Proof. split; reflexivity. Qed.

End ChunkDocument.

(** ** The batch embedder and the records made from its result *)

Section EmbedderClaims.
Import Py VectorService Vocabulary.

Lemma collect_records_elem (k : Z) (chunks : list text)
    (embeddings : list (option embedding)) (r : chunk_record) :
  r ∈ collect_records k chunks embeddings
  <-> exists (i : nat) c e,
        chunks !! i = Some c /\ embeddings !! i = Some (Some e)
        /\ r = ChunkRecord (k + Z.of_nat i) c (len (split c)) e.
Proof.
  revert k embeddings.
  induction chunks as [|c0 chunks IH]; intros k [|emb embeddings]; cbn.
  - split; [by intros ?%elem_of_nil|by intros (i & c & e & ? & _)].
  - split; [by intros ?%elem_of_nil|by intros (i & c & e & ? & _)].
  - split; [by intros ?%elem_of_nil|]. intros (i & c & e & _ & ? & _).
    by destruct i.
  - assert (Hshift : forall i : nat, k + 1 + Z.of_nat i = k + Z.of_nat (S i))
      by lia.
    destruct emb as [e0|].
    + rewrite elem_of_cons, IH. split.
      * intros [->|(i & c & e & Hc & He & ->)].
        -- exists 0%nat, c0, e0. by rewrite Z.add_0_r.
        -- exists (S i), c, e. by rewrite Hshift.
      * intros ([|i] & c & e & Hc & He & ->); cbn in Hc, He.
        -- left. injection Hc as <-. injection He as <-.
           by rewrite Z.add_0_r.
        -- right. exists i, c, e. by rewrite Hshift.
    + rewrite IH. split.
      * intros (i & c & e & Hc & He & ->). exists (S i), c, e.
        by rewrite Hshift.
      * intros ([|i] & c & e & Hc & He & ->); cbn in Hc, He; [done|].
        exists i, c, e. by rewrite Hshift.
Qed.

(** C8, as the code has it. If the encoder returns one vector per
    text, the result has the length of the batch; it holds the
    embeddings of all texts when the batch call succeeds and a null
    at every position when the batch call raises, so one failure nulls
    the whole batch; the records that are persisted are exactly those
    of the positions that are not null, with the index and the text of
    the chunk. *)
Theorem generate_chunk_embeddings_batch
    (encode : list text -> option (list embedding)) (chunks : list text) :
  (forall l es, encode l = Some es -> length es = length l) ->
  let embeddings := generate_chunk_embeddings encode chunks in
  length embeddings = length chunks
  /\ ((exists es, encode (map _preprocess_text chunks) = Some es
                  /\ embeddings = map Some es)
      \/ (encode (map _preprocess_text chunks) = None
          /\ Forall (fun e => e = None) embeddings))
  /\ (forall r, r ∈ chunk_records chunks embeddings
        <-> exists (i : nat) c e,
              chunks !! i = Some c /\ embeddings !! i = Some (Some e)
              /\ r = ChunkRecord (Z.of_nat i) c (len (split c)) e).
Proof.
  intros Hlen embeddings. split_and!.
  - subst embeddings. unfold generate_chunk_embeddings.
    destruct (encode _) as [es|] eqn:Henc.
    + rewrite length_map, (Hlen _ _ Henc). apply length_map.
    + apply repeat_length.
  - subst embeddings. unfold generate_chunk_embeddings.
    destruct (encode _) as [es|] eqn:Henc; [left; by exists es|right].
    split; [done|]. rewrite Forall_forall. intros e He.
    apply list_elem_of_In in He. by apply repeat_spec in He.
  - intros r. unfold chunk_records. rewrite collect_records_elem.
    by setoid_rewrite Z.add_0_l.
Qed.

Lemma batch_of_length (embed : text -> option embedding) (l : list text)
    (es : list embedding) :
  batch_of embed l = Some es -> length es = length l.
Proof.
  unfold batch_of. intros H%mapM_Some_1. symmetry.
  by eapply Forall2_length.
Qed.

Lemma generate_chunk_embeddings_batch_witness :
  (forall l es, batch_of (fails_on (lit "bad")) l = Some es ->
     length es = length l)
  /\ (let chunks := [lit "good"; lit "bad"] in
      let embeddings :=
        generate_chunk_embeddings (batch_of (fails_on (lit "bad"))) chunks in
      length embeddings = length chunks
      /\ ((exists es,
             batch_of (fails_on (lit "bad")) (map _preprocess_text chunks)
             = Some es /\ embeddings = map Some es)
          \/ (batch_of (fails_on (lit "bad")) (map _preprocess_text chunks)
              = None /\ Forall (fun e => e = None) embeddings))
      /\ (forall r, r ∈ chunk_records chunks embeddings
            <-> exists (i : nat) c e,
                  chunks !! i = Some c /\ embeddings !! i = Some (Some e)
                  /\ r = ChunkRecord (Z.of_nat i) c (len (split c)) e)).
Proof.
  split; [apply batch_of_length|].
  apply (generate_chunk_embeddings_batch (batch_of (fails_on (lit "bad")))
           [lit "good"; lit "bad"]).
  apply batch_of_length.
Defined.

(** C8, where the claim fails: in a batch of a text that embeds and a
    text that does not, the position of the first text holds a null as
    well. *)
Lemma generate_chunk_embeddings_nulls_all :
  generate_chunk_embeddings (batch_of (fails_on (lit "bad")))
    [lit "good"; lit "bad"] = [None; None]
  /\ ~ keeps_good_items (batch_of (fails_on (lit "bad")))
         [lit "good"; lit "bad"].
Proof.
  assert (Hres : generate_chunk_embeddings (batch_of (fails_on (lit "bad")))
                   [lit "good"; lit "bad"] = [None; None])
    by (vm_compute; reflexivity).
  split; [exact Hres|]. intros H.
  specialize (H 0%nat (lit "good") [1%float] eq_refl).
  rewrite Hres in H. cbn [lookup list_lookup] in H.
  assert (Henc : batch_of (fails_on (lit "bad")) [_preprocess_text (lit "good")]
                 = Some [[1%float]]) by (vm_compute; reflexivity).
  specialize (H Henc). discriminate H.
Qed.

End EmbedderClaims.

(** ** Deletion of a document by filename *)

Section DeleteClaims.
Import Py DocumentStorage Vocabulary.

(** A row returned by [select('id')] has no [source_metadata]. *)
Lemma select_id_no_metadata (r : row) :
  select ["id"%string] r !! "source_metadata"%string = None.
Proof.
  unfold select. apply map_lookup_filter_None_2. right.
  intros v _ Hin. cbn in Hin. apply list_elem_of_singleton in Hin.
  discriminate Hin.
Qed.

Lemma has_filename_select_id (filename : string) (r : row) :
  has_filename filename (select ["id"%string] r) = Some false.
Proof. unfold has_filename. by rewrite select_id_no_metadata. Qed.

(** So the comprehension over the selected rows finds no chunk. *)
Lemma chunk_ids_select_id (filename : string) (rs : list row) :
  chunk_ids filename (map (select ["id"%string]) rs) = Some [].
Proof.
  induction rs as [|r rs IH]; [done|].
  cbn [map chunk_ids]. by rewrite has_filename_select_id.
Qed.

(** C1, where the code falls short: whatever the store holds and
    whatever file is named, [delete_document_chunks] leaves the store
    as it is; it reports zero deleted chunks, or a failure for an
    unknown knowledge-base type. *)
Theorem delete_document_chunks_keeps_store (db : store)
    (account_id filename kb_type : string) (thread_id agent_id : option string) :
  delete_document_chunks db account_id filename kb_type thread_id agent_id
  = (db, Deleted 0)
  \/ delete_document_chunks db account_id filename kb_type thread_id agent_id
     = (db, Failed).
Proof.
  unfold delete_document_chunks.
  destruct (table_of kb_type) as [t|]; [left|by right].
  unfold execute_select. rewrite chunk_ids_select_id.
  by destruct (map _ _).
Qed.

(** The chunk of [report.pdf] is an entry of the account's global
    scope with that filename, and it stays in the store when the
    document is deleted. *)
Lemma delete_document_chunks_report :
  is_chunk_of GlobalTable "acct" "report.pdf" None None report_chunk = true
  /\ delete_document_chunks report_store "acct" "report.pdf" "global" None None
     = (report_store, Deleted 0).
Proof.
  split; [by vm_compute|].
  unfold delete_document_chunks. change (table_of "global") with (Some GlobalTable).
  unfold execute_select. rewrite chunk_ids_select_id.
  by vm_compute.
Qed.

End DeleteClaims.

(** ** The checks of the upload endpoint *)

Section UploadClaims.
Import DocumentProcessor Api.

Lemma upload_document_accepts (enabled : bool) (content_type : option string)
    (size : Z) :
  upload_document enabled content_type size = Proceeds
  <-> enabled = true
      /\ (exists t, content_type = Some t /\ t ∈ allowed_types)
      /\ size <= max_size.
Proof.
  unfold upload_document. destruct enabled; cbn [negb]; [|by split; [|intros []]].
  case_bool_decide as Hin; cbn [negb].
  - apply list_elem_of_fmap in Hin as (t & -> & Ht).
    destruct (Z.gtb_spec size max_size).
    + split; [done|]. intros (_ & _ & ?). lia.
    + split; [|done]. intros _. split_and!; [done|by exists t|lia].
  - split; [done|]. intros (_ & (t & -> & Ht) & _). exfalso. apply Hin.
    by apply list_elem_of_fmap_2.
Qed.

(** C2, where the code falls short: three of the nine MIME types the
    document processor supports are rejected by the upload endpoint
    with status 400, whatever the size of the file. *)
Theorem upload_document_rejects_supported :
  Forall
    (fun t => is_format_supported t = true
              /\ forall size, upload_document true (Some t) size = Rejected 400)
    [ "text/html"; "application/vnd.ms-excel";
      "application/vnd.openxmlformats-officedocument.spreadsheetml.sheet"
    ]%string.
Proof. repeat constructor. Qed.

(** The six types of the endpoint are among the nine of the
    processor. *)
Lemma allowed_types_supported :
  Forall (fun t => is_format_supported t = true) allowed_types.
Proof. repeat constructor. Qed.

End UploadClaims.

(** ** The functions on small inputs *)

Section Examples.
Import Py DocumentProcessor VectorService.

Example split_example :
  split (lit "  aaaa  bbbb cccc ") = [lit "aaaa"; lit "bbbb"; lit "cccc"].
Proof. reflexivity. Qed.

Example clean_text_example :
  _clean_text (lit "  a   b ") = Some (lit "a b")
  /\ _clean_text (NL :: SP :: NL :: NL :: lit " c d  ") = Some (lit "c d")
  /\ _clean_text (lit "a  b" ++ NL :: NL :: NL :: lit "c") = Some (lit "a b" ++ NL :: lit "c").
Proof. by vm_compute. Qed.

(** Seven words, a chunk size of 10 characters and an overlap of one
    word: six chunks of two words, each starting at the last word of
    its predecessor. *)
Example chunk_text_example :
  map (fun c => (start_word c, end_word c, chunk_text_of c))
    (_chunk_text (lit "aaaa bbbb cccc dd ee ffffff g") 10 1)
  = [ (0, 1, lit "aaaa bbbb"); (1, 2, lit "bbbb cccc"); (2, 3, lit "cccc dd");
      (3, 4, lit "dd ee"); (4, 5, lit "ee ffffff"); (5, 6, lit "ffffff g") ].
Proof. by vm_compute. Qed.

(** A text of 68 characters, windows of 30 characters that end on a
    sentence end where there is one, an overlap of 5 characters. *)
Example chunk_document_example :
  chunk_document 10
    (lit "Hello world. This is a test! And more text here? yes indeed it is so")
    30 5
  = Returned [ lit "Hello world. This is a test!";
               lit "test! And more text here?";
               lit "here? yes indeed it is so" ].
Proof. by vm_compute. Qed.

Example cosine_similarity_example :
  _calculate_cosine_similarity [3; 4]%float [4; 3]%float = (24 / 25)%float
  /\ _calculate_cosine_similarity [3; 4]%float [0; 0]%float = 0%float
  /\ _calculate_cosine_similarity [3; 4]%float [6; 8]%float = 1%float.
Proof. by vm_compute. Qed.

End Examples.

(** ** More on the search: which hits are returned, and in which order *)

Section SearchOrder.
Import Py VectorService Vocabulary.

Variable similarity : embedding -> embedding -> float.

Lemma SFleb_trans (a b c : SpecFloat.spec_float) :
  SpecFloat.SFleb a b = true -> SpecFloat.SFleb b c = true ->
  SpecFloat.SFleb a c = true.
Proof.
  unfold SpecFloat.SFleb.
  destruct a as [s1|s1| |s1 m1 e1], b as [s2|s2| |s2 m2 e2],
           c as [s3|s3| |s3 m3 e3]; cbn;
    try destruct s1; try destruct s2; try destruct s3;
    try reflexivity; try discriminate.
  all: change (Pos.compare_cont Eq) with Pos.compare.
  all: destruct (Z.compare_spec e1 e2); destruct (Z.compare_spec e2 e3);
       destruct (Z.compare_spec e1 e3); cbn; try reflexivity; try discriminate;
       try lia.
  all: destruct (Pos.compare_spec m1 m2); destruct (Pos.compare_spec m2 m3);
       destruct (Pos.compare_spec m1 m3); cbn; try reflexivity; try discriminate;
       try lia.
Qed.

Lemma geb_trans (x y z : float) :
  geb x y = true -> geb y z = true -> geb x z = true.
Proof.
  unfold geb. rewrite !leb_spec. intros Hxy Hyz.
  by apply (SFleb_trans _ (Prim2SF y)).
Qed.

Lemma score_ge_trans (a b c : scored) :
  score_ge a b -> score_ge b c -> score_ge a c.
Proof. apply geb_trans. Qed.

Lemma insert_desc_perm (x : scored) (l : list scored) :
  insert_desc x l ≡ₚ x :: l.
Proof.
  induction l as [|y l IH]; [done|]. cbn.
  destruct (PrimFloat.ltb _ _); [|done].
  rewrite IH. apply Permutation_swap.
Qed.

Lemma sort_desc_perm (l : list scored) : sort_desc l ≡ₚ l.
Proof.
  induction l as [|x l IH]; [done|]. cbn.
  by rewrite insert_desc_perm, IH.
Qed.

(** The rows of the scored hits are the candidates that reach the
    threshold, in the order of the store. *)
Lemma relevant_chunks_rows (q : embedding) (thr : float) (rows : list row) :
  map scored_row (relevant_chunks similarity q thr rows)
  = List.filter (reaches similarity q thr) rows.
Proof.
  induction rows as [|r rows IH]; [done|].
  cbn [relevant_chunks List.filter]. unfold reaches at 1.
  destruct (row_embedding r) as [[|x e]|]; try done.
  destruct (geb _ _); [|done]. cbn. by rewrite IH.
Qed.

Lemma sort_desc_StronglySorted (thr : float) (l : list scored) :
  Forall (fun y => geb (similarity_score y) thr = true) l ->
  StronglySorted score_ge (sort_desc l).
Proof.
  intros Hl. apply Sorted_StronglySorted.
  - intros a b c. apply score_ge_trans.
  - by apply (sort_desc_Sorted thr).
Qed.

Lemma StronglySorted_take_drop {A : Type} (R : A -> A -> Prop) (n : nat)
    (l : list A) :
  StronglySorted R l ->
  Forall (fun a => Forall (fun b => R a b) (drop n l)) (take n l).
Proof.
  intros Hs. revert n. induction Hs as [|x l Hs IH Hx]; intros [|n]; cbn;
    try constructor.
  - by apply Forall_drop.
  - apply IH.
Qed.

Lemma relevant_chunks_reach (q : embedding) (thr : float) (rows : list row) :
  Forall (fun y => geb (similarity_score y) thr = true)
    (relevant_chunks similarity q thr rows).
Proof.
  eapply Forall_impl; [apply relevant_chunks_hits|]. by intros s [H _].
Qed.

End SearchOrder.

Section SearchExtras.
Import Py VectorService Vocabulary.

Variable similarity : embedding -> embedding -> float.

Lemma slice_to_all {A : Type} (m : Z) (l : list A) :
  len l <= m -> slice_to m l = l.
Proof.
  intros Hm. pose proof (len_nonneg l). unfold slice_to, clip.
  destruct (Z.ltb_spec m 0); [lia|]. rewrite Z.min_r by lia.
  unfold len. rewrite Nat2Z.id. apply firstn_all.
Qed.

Lemma geb_refl (x t : float) : geb x t = true -> geb x x = true.
Proof.
  unfold geb. rewrite !leb_spec. intros [c Hc]%SFleb_not_nan.
  pose proof (SFcompare_antisym (Prim2SF x) (Prim2SF x)) as Ha.
  rewrite Hc in Ha. cbn in Ha. unfold SpecFloat.SFleb. rewrite Hc.
  by destruct c.
Qed.

Lemma relevant_chunks_elem (q : embedding) (thr : float) (rows : list row)
    (r : row) (e : embedding) :
  r ∈ rows -> row_embedding r = Some e -> reaches similarity q thr r = true ->
  Scored r (similarity q e) ∈ relevant_chunks similarity q thr rows.
Proof.
  intros Hr He Hreach. induction Hr as [r rows|r r' rows Hr IH].
  - cbn [relevant_chunks]. unfold reaches in Hreach. rewrite He in *.
    destruct e as [|x e]; [done|]. rewrite Hreach. by left.
  - cbn [relevant_chunks].
    destruct (row_embedding r') as [[|x' e']|]; try by apply IH.
    destruct (geb _ _); [right|]; by apply IH.
Qed.

(** When the hits are no more than [max_results], the search returns
    each candidate row that reaches the threshold, once. *)
Theorem search_returns_every_hit (x : float) (q : embedding)
    (rows : list row) (similarity_threshold : float) (max_results : Z) :
  len (List.filter (reaches similarity (x :: q) similarity_threshold) rows)
    <= max_results ->
  map scored_row
    (search_knowledge_base similarity (Some (x :: q)) (Some rows)
       similarity_threshold max_results)
  ≡ₚ List.filter (reaches similarity (x :: q) similarity_threshold) rows.
Proof.
  intros Hm. rewrite <- relevant_chunks_rows in Hm |- *.
  unfold search_knowledge_base. destruct rows as [|r rows]; [done|].
  rewrite slice_to_all.
  - apply Permutation_map, sort_desc_perm.
  - unfold len in *. rewrite (Permutation_length (sort_desc_perm _)).
    by rewrite length_map in Hm.
Qed.

(** Whatever [max_results] is, the search returns the best hits: the
    entries returned and the hits left out are together the scored
    hits, and no hit left out scores higher than an entry returned. *)
Theorem search_returns_top (x : float) (q : embedding) (rows : list row)
    (similarity_threshold : float) (max_results : Z) :
  exists rest,
    search_knowledge_base similarity (Some (x :: q)) (Some rows)
      similarity_threshold max_results ++ rest
    ≡ₚ relevant_chunks similarity (x :: q) similarity_threshold rows
    /\ Forall (fun a => Forall (fun b => score_ge a b) rest)
         (search_knowledge_base similarity (Some (x :: q)) (Some rows)
            similarity_threshold max_results).
Proof.
  unfold search_knowledge_base. destruct rows as [|r rows].
  { exists []. by split. }
  set (hits := relevant_chunks similarity (x :: q) similarity_threshold
                 (r :: rows)).
  unfold slice_to. set (n := Z.to_nat (clip (len (sort_desc hits)) max_results)).
  exists (drop n (sort_desc hits)). split.
  - rewrite take_drop. apply sort_desc_perm.
  - apply StronglySorted_take_drop.
    apply (sort_desc_StronglySorted similarity_threshold).
    apply relevant_chunks_reach.
Qed.

(** The relevance gate answers [True] exactly when some candidate
    reaches the threshold, and the score it then reports is the
    similarity of a candidate, reaches the threshold and is at least
    the similarity of every candidate that reaches it. *)
Theorem is_query_relevant_best (x : float) (q : embedding) (rows : list row)
    (relevance_threshold : float) :
  let res := is_query_relevant similarity (Some (x :: q)) (Some rows)
               relevance_threshold in
  (fst res = true
   <-> Exists (fun r => reaches similarity (x :: q) relevance_threshold r = true)
         rows)
  /\ (fst res = true ->
      geb (snd res) relevance_threshold = true
      /\ (exists r e, r ∈ rows /\ row_embedding r = Some e
                      /\ snd res = similarity (x :: q) e)
      /\ forall r e, r ∈ rows -> row_embedding r = Some e ->
           reaches similarity (x :: q) relevance_threshold r = true ->
           geb (snd res) (similarity (x :: q) e) = true).
Proof.
  cbv zeta. unfold is_query_relevant, search_knowledge_base.
  destruct rows as [|r0 rows].
  { cbn. split; [|done]. split; [done|]. by intros ?%Exists_nil. }
  set (hits := relevant_chunks similarity (x :: q) relevance_threshold
                 (r0 :: rows)).
  pose proof (relevant_chunks_rows similarity (x :: q) relevance_threshold
                (r0 :: rows)) as Hrows. fold hits in Hrows.
  pose proof (relevant_chunks_hits similarity (x :: q) relevance_threshold
                (r0 :: rows)) as Hhits. fold hits in Hhits.
  pose proof (sort_desc_perm hits) as Hperm.
  pose proof (sort_desc_StronglySorted relevance_threshold hits
                (relevant_chunks_reach similarity _ _ _)) as Hsorted.
  destruct (sort_desc hits) as [|h t] eqn:Hs.
  - apply Permutation_nil_l in Hperm. rewrite <- Hperm in Hrows. cbn.
    split; [|done]. split; [done|]. intros Hex. exfalso.
    apply Exists_exists in Hex as (r & Hr & Hreach).
    assert (Hin : r ∈ List.filter
                        (reaches similarity (x :: q) relevance_threshold)
                        (r0 :: rows)).
    { apply list_elem_of_In, filter_In. split; [|done].
      by apply list_elem_of_In. }
    rewrite <- Hrows in Hin. by apply elem_of_nil in Hin.
  - assert (Hone : slice_to 1 (h :: t) = [h]).
    { unfold slice_to, clip, len. cbn [length].
      replace (Z.to_nat _) with 1%nat; [done|].
      destruct (Z.ltb_spec 1 0); lia. }
    rewrite Hone. cbn [map py_max foldl fst snd].
    assert (Hh : h ∈ hits) by (rewrite <- Hperm; by left).
    rewrite Forall_forall in Hhits.
    destruct (Hhits h Hh) as (Hge & Hhr & e & He & Hscore).
    rewrite Hge. split.
    + split; [|done]. intros _. apply Exists_exists. exists (scored_row h).
      split; [done|]. unfold reaches. rewrite He.
      destruct e as [|y e].
      * assert (Hin : scored_row h ∈ map scored_row hits)
          by (apply list_elem_of_In, in_map, list_elem_of_In, Hh).
        rewrite Hrows in Hin. apply list_elem_of_In, filter_In in Hin as [_ Hin].
        unfold reaches in Hin. by rewrite He in Hin.
      * by rewrite <- Hscore.
    + intros _. split_and!; [done|by exists (scored_row h), e|].
      intros r e' Hr He' Hreach.
      pose proof (relevant_chunks_elem (x :: q) relevance_threshold
                    (r0 :: rows) r e' Hr He' Hreach) as Hin.
      fold hits in Hin. rewrite <- Hperm in Hin.
      apply elem_of_cons in Hin as [Heq|Hin].
      * rewrite <- Heq in Hge |- *. cbn in *.
        by apply (geb_refl _ relevance_threshold).
      * apply StronglySorted_inv in Hsorted as [_ Hall].
        rewrite Forall_forall in Hall. apply (Hall _ Hin).
Qed.

End SearchExtras.

Section SearchTies.
Import Py VectorService Vocabulary.

Variable similarity : embedding -> embedding -> float.

Lemma SFeqb_not_ltb (a b c : SpecFloat.spec_float) :
  SpecFloat.SFeqb a c = true -> SpecFloat.SFeqb b c = true ->
  SpecFloat.SFltb a b = false.
Proof.
  unfold SpecFloat.SFeqb, SpecFloat.SFltb.
  destruct a as [s1|s1| |s1 m1 e1], b as [s2|s2| |s2 m2 e2],
           c as [s3|s3| |s3 m3 e3]; cbn;
    try destruct s1; try destruct s2; try destruct s3;
    try reflexivity; try discriminate.
  all: change (Pos.compare_cont Eq) with Pos.compare.
  all: destruct (Z.compare_spec e1 e3); destruct (Z.compare_spec e2 e3);
       destruct (Z.compare_spec e1 e2); cbn; try reflexivity; try discriminate;
       try lia.
  all: destruct (Pos.compare_spec m1 m3); destruct (Pos.compare_spec m2 m3);
       destruct (Pos.compare_spec m1 m2); cbn; try reflexivity; try discriminate;
       try lia.
Qed.

Lemma eqb_not_ltb (x y s : float) :
  PrimFloat.eqb x s = true -> PrimFloat.eqb y s = true ->
  PrimFloat.ltb x y = false.
Proof. rewrite !FloatAxioms.eqb_spec, FloatAxioms.ltb_spec. apply SFeqb_not_ltb. Qed.

(** Inserting an entry does not move it past an entry of the same
    score. *)
Lemma insert_desc_ties (s : float) (x : scored) (l : list scored) :
  List.filter (fun a => PrimFloat.eqb (similarity_score a) s) (insert_desc x l)
  = List.filter (fun a => PrimFloat.eqb (similarity_score a) s) (x :: l).
Proof.
  induction l as [|y l IH]; [done|]. cbn [insert_desc].
  destruct (PrimFloat.ltb (similarity_score x) (similarity_score y)) eqn:Hlt;
    [|done].
  cbn [List.filter] in *. rewrite IH.
  destruct (PrimFloat.eqb (similarity_score x) s) eqn:Hx; [|done].
  destruct (PrimFloat.eqb (similarity_score y) s) eqn:Hy; [|done].
  by rewrite (eqb_not_ltb _ _ s Hx Hy) in Hlt.
Qed.

Lemma sort_desc_ties (s : float) (l : list scored) :
  List.filter (fun a => PrimFloat.eqb (similarity_score a) s) (sort_desc l)
  = List.filter (fun a => PrimFloat.eqb (similarity_score a) s) l.
Proof.
  induction l as [|x l IH]; [done|].
  cbn [sort_desc foldr]. rewrite insert_desc_ties. cbn [List.filter].
  fold (sort_desc l). by rewrite IH.
Qed.

(** The sort is stable: among the hits of one and the same score, the
    search returns the first ones in the order in which the store
    returned the rows, and in that order. *)
Theorem search_keeps_order_of_ties (x : float) (q : embedding)
    (rows : list row) (similarity_threshold : float) (max_results : Z)
    (s : float) :
  List.filter (fun a => PrimFloat.eqb (similarity_score a) s)
    (search_knowledge_base similarity (Some (x :: q)) (Some rows)
       similarity_threshold max_results)
  `prefix_of`
  List.filter (fun a => PrimFloat.eqb (similarity_score a) s)
    (relevant_chunks similarity (x :: q) similarity_threshold rows).
Proof.
  unfold search_knowledge_base. destruct rows as [|r rows].
  { by exists []. }
  set (hits := relevant_chunks similarity (x :: q) similarity_threshold
                 (r :: rows)).
  unfold slice_to. set (n := Z.to_nat _).
  rewrite <- (sort_desc_ties s hits).
  rewrite <- (take_drop n (sort_desc hits)) at 2.
  rewrite List.filter_app. by eexists.
Qed.

End SearchTies.

(** ** More on the normalizer: the words and the shape of its result *)

Section CleanTextExtras.
Import Py DocumentProcessor Vocabulary.

Lemma in_word_split (s : text) : in_word s = true -> split s <> [].
Proof.
  destruct s as [|c s]; [done|]. cbn. intros Hc%negb_true_iff. rewrite Hc.
  destruct (in_word s); [|done]. by destruct (split s).
Qed.

(** Whitespace separates words, and only that. *)
Lemma split_app_space (a b : text) (c : char) :
  isspace c = true -> split (a ++ c :: b) = split a ++ split b.
Proof.
  intros Hc. induction a as [|x a IH].
  - cbn. by rewrite Hc.
  - cbn [app split]. destruct (isspace x); [done|]. rewrite IH.
    destruct a as [|y a].
    + cbn [app in_word]. by rewrite Hc.
    + cbn [app in_word]. destruct (negb (isspace y)) eqn:Hy; [|done].
      pose proof (in_word_split (y :: a)) as Hne. cbn [in_word] in Hne.
      specialize (Hne Hy). by destruct (split (y :: a)).
Qed.

Lemma split_on_nonempty (sep : char) (s : text) : split_on sep s <> [].
Proof.
  induction s as [|c s IH]; [done|]. cbn.
  destruct (c =? sep)%N; [done|]. by destruct (split_on sep s).
Qed.

Lemma join_cons (sep : text) (c : char) (l : text) (ls : list text) :
  join sep ((c :: l) :: ls) = c :: join sep (l :: ls).
Proof. by destruct ls. Qed.

(** Joining the lines of a text gives the text back. *)
Lemma join_split_on (s : text) : join [NL] (split_on NL s) = s.
Proof.
  induction s as [|c s IH]; [done|]. cbn [split_on].
  pose proof (split_on_nonempty NL s) as Hne.
  destruct (N.eqb_spec c NL) as [->|Hc].
  - destruct (split_on NL s) as [|l ls]; [done|].
    change (join [NL] ([] :: l :: ls)) with (NL :: join [NL] (l :: ls)).
    by rewrite IH.
  - destruct (split_on NL s) as [|l ls]; [done|].
    by rewrite join_cons, IH.
Qed.

Lemma split_join_nl (lines : list text) :
  split (join [NL] lines) = concat (map split lines).
Proof.
  induction lines as [|l lines IH]; [done|].
  destruct lines as [|l' lines].
  - cbn. by rewrite app_nil_r.
  - change (join [NL] (l :: l' :: lines))
      with (l ++ NL :: join [NL] (l' :: lines)).
    rewrite split_app_space by done. by rewrite IH.
Qed.

(** The cleaning loop keeps the words of every line. *)
Lemma clean_lines_words (lines : list text) :
  concat (map split (clean_lines lines)) = concat (map split lines).
Proof.
  unfold clean_lines. induction lines as [|l lines IH]; [done|].
  cbn [flat_map map concat]. rewrite map_app, concat_app, IH. f_equal.
  destruct (strip (join [SP] (split l))) eqn:Hs.
  - destruct (split l) as [|w ws] eqn:Hl; [done|].
    assert (Ht : trimmed (join [SP] (w :: ws))).
    { apply join_trimmed; [done|]. rewrite <- Hl.
      eapply Forall_impl; [apply split_words|]. apply word_trimmed. }
    rewrite strip_trimmed in Hs by done. by apply trimmed_nonempty in Ht.
  - cbn. rewrite app_nil_r. apply split_join, split_words.
Qed.

Lemma clean_text_eq (t : text) :
  _clean_text t = Some (join [NL] (clean_lines (split_on NL t))).
Proof.
  destruct t as [|c t]; [done|].
  pose proof (clean_lines_lines (split_on NL (c :: t))) as Hl.
  cbn [_clean_text].
  rewrite collapse_newlines_none by by apply contains_join.
  destruct (clean_lines (split_on NL (c :: t))) as [|l ls] eqn:Hls; [done|].
  rewrite strip_trimmed; [done|].
  apply join_trimmed; [done|].
  eapply Forall_impl; [exact Hl|]. apply is_line_trimmed.
Qed.

Lemma clean_words (t : text) :
  split (join [NL] (clean_lines (split_on NL t))) = split t.
Proof.
  rewrite split_join_nl, clean_lines_words, <- split_join_nl.
  by rewrite join_split_on.
Qed.

(** The normalizer changes whitespace only: the word sequence of its
    result is the word sequence of the text. *)
Theorem clean_text_keeps_words (t : text) :
  exists y, _clean_text t = Some y /\ split y = split t.
Proof. eexists. split; [apply clean_text_eq|apply clean_words]. Qed.

(** The normalizer returns the empty string exactly for the texts that
    have no word: the empty text and the texts of whitespace only. *)
Theorem clean_text_empty_iff (t : text) :
  _clean_text t = Some [] <-> split t = [].
Proof.
  rewrite clean_text_eq.
  pose proof (clean_lines_lines (split_on NL t)) as Hl.
  pose proof (clean_words t) as Hw.
  split.
  - intros [= Hy]. by rewrite Hy in Hw.
  - intros Ht. f_equal.
    destruct (clean_lines (split_on NL t)) as [|l ls]; [done|].
    assert (Htr : trimmed (join [NL] (l :: ls))).
    { apply join_trimmed; [done|].
      eapply Forall_impl; [exact Hl|]. apply is_line_trimmed. }
    destruct Htr as [(c & s' & Hj & Hc) _]. rewrite Hj in Hw.
    rewrite Ht in Hw. cbn in Hw. rewrite Hc in Hw.
    destruct (in_word s'); [by destruct (split s')|done].
Qed.

Lemma has_ws_pair_cons (c d : char) (s : text) :
  has_ws_pair (c :: d :: s) = (isspace c && isspace d) || has_ws_pair (d :: s).
Proof. reflexivity. Qed.

Lemma has_ws_pair_app (a b : text) (sep : char) :
  (exists a' c, a = a' ++ [c] /\ isspace c = false) ->
  (exists c b', b = c :: b' /\ isspace c = false) ->
  has_ws_pair a = false -> has_ws_pair b = false ->
  has_ws_pair (a ++ sep :: b) = false.
Proof.
  intros (a' & c & -> & Hc) (d & b' & -> & Hd) Ha Hb.
  induction a' as [|x a' IH].
  - cbn [app]. rewrite !has_ws_pair_cons, Hc, Hd, Hb.
    by rewrite andb_false_r.
  - destruct (a' ++ [c]) as [|y l] eqn:Hl.
    { by destruct a'. }
    cbn [app] in *. rewrite Hl in *. cbn [app] in *.
    rewrite has_ws_pair_cons in Ha |- *.
    apply orb_false_iff in Ha as [Hxy Ha]. rewrite Hxy. by apply IH.
Qed.

Lemma has_ws_pair_word (w : text) : is_word w -> has_ws_pair w = false.
Proof.
  intros [_ Hw]. induction Hw as [|c w Hc Hw IH]; [done|].
  destruct w as [|d w]; [done|]. by rewrite has_ws_pair_cons, Hc, IH.
Qed.

Lemma has_ws_pair_join (sep : char) (parts : list text) :
  Forall trimmed parts -> Forall (fun p => has_ws_pair p = false) parts ->
  has_ws_pair (join [sep] parts) = false.
Proof.
  intros Ht Hp. induction Ht as [|p parts Hpt Ht IH]; [done|].
  apply Forall_cons in Hp as [Hp Hps].
  destruct parts as [|p' parts]; [done|].
  change (join [sep] (p :: p' :: parts))
    with (p ++ sep :: join [sep] (p' :: parts)).
  assert (Hj : trimmed (join [sep] (p' :: parts)))
    by (by apply join_trimmed).
  apply has_ws_pair_app; [apply Hpt|apply Hj|done|by apply IH].
Qed.

Lemma has_ws_pair_line (l : text) : is_line l -> has_ws_pair l = false.
Proof.
  intros (ws & _ & Hws & ->). apply has_ws_pair_join.
  - eapply Forall_impl; [exact Hws|]. apply word_trimmed.
  - eapply Forall_impl; [exact Hws|]. apply has_ws_pair_word.
Qed.

Lemma contains_ws_pair (a b : char) (s : text) :
  isspace a = true -> isspace b = true -> has_ws_pair s = false ->
  contains [a; b] s = false.
Proof.
  intros Ha Hb. induction s as [|c s IH]; [done|]. intros Hs.
  change (contains [a; b] (c :: s))
    with (startswith [a; b] (c :: s) || contains [a; b] s).
  destruct s as [|d s].
  - cbn. by rewrite andb_false_r.
  - rewrite has_ws_pair_cons in Hs. apply orb_false_iff in Hs as [Hcd Hs].
    rewrite (IH Hs), orb_false_r. cbn [startswith].
    destruct (N.eqb_spec a c) as [<-|]; [|done].
    destruct (N.eqb_spec b d) as [<-|]; [|done].
    by rewrite Ha, Hb in Hcd.
Qed.

Lemma is_word_ws (w : text) :
  is_word w -> Forall (fun c => isspace c = true -> c = SP \/ c = NL) w.
Proof.
  intros [_ Hw]. eapply Forall_impl; [exact Hw|]. intros c Hc. by rewrite Hc.
Qed.

Lemma join_ws (sep : char) (parts : list text) :
  sep = SP \/ sep = NL ->
  Forall (Forall (fun c => isspace c = true -> c = SP \/ c = NL)) parts ->
  Forall (fun c => isspace c = true -> c = SP \/ c = NL) (join [sep] parts).
Proof.
  intros Hsep. induction 1 as [|p parts Hp Hps IH]; [constructor|].
  destruct parts as [|p' parts]; [done|].
  change (join [sep] (p :: p' :: parts))
    with (p ++ sep :: join [sep] (p' :: parts)).
  apply Forall_app. split; [done|]. by constructor.
Qed.

(** The shape of a normalized text: it neither begins nor ends with
    whitespace, its only whitespace characters are spaces and
    newlines, and no two of them stand side by side; so it has no
    blank line and no double space. *)
Theorem clean_text_shape (t : text) :
  exists y, _clean_text t = Some y
    /\ strip y = y
    /\ Forall (fun c => isspace c = true -> c = SP \/ c = NL) y
    /\ has_ws_pair y = false
    /\ contains [NL; NL] y = false
    /\ contains [SP; SP] y = false.
Proof.
  eexists. split; [apply clean_text_eq|].
  pose proof (clean_lines_lines (split_on NL t)) as Hl.
  set (lines := clean_lines (split_on NL t)) in *.
  assert (Hpair : has_ws_pair (join [NL] lines) = false).
  { apply has_ws_pair_join.
    - eapply Forall_impl; [exact Hl|]. apply is_line_trimmed.
    - eapply Forall_impl; [exact Hl|]. apply has_ws_pair_line. }
  split_and!; [| |done|by apply contains_ws_pair|by apply contains_ws_pair].
  - destruct lines as [|l ls] eqn:Hls; [done|].
    apply strip_trimmed, join_trimmed; [done|].
    eapply Forall_impl; [exact Hl|]. apply is_line_trimmed.
  - apply join_ws; [by right|].
    eapply Forall_impl; [exact Hl|]. intros l (ws & _ & Hws & ->).
    apply join_ws; [by left|].
    eapply Forall_impl; [exact Hws|]. apply is_word_ws.
Qed.

End CleanTextExtras.

(** ** More on the word-based chunker: sizes and counts *)

Section ChunkTextExtras.
Import Py DocumentProcessor Vocabulary.

Lemma words_size_app (a b : list text) :
  words_size (a ++ b) = words_size a + words_size b.
Proof.
  unfold words_size. induction a as [|w a IH]; [done|].
  cbn [app foldr]. rewrite IH. lia.
Qed.

Lemma words_size_join (ws : list text) :
  ws <> [] -> words_size ws = len (join [SP] ws) + 1.
Proof.
  induction ws as [|w ws IH]; [done|]. intros _.
  destruct ws as [|w' ws].
  - unfold words_size. cbn. lia.
  - change (join [SP] (w :: w' :: ws)) with (w ++ SP :: join [SP] (w' :: ws)).
    change (words_size (w :: w' :: ws))
      with (len w + 1 + words_size (w' :: ws)).
    rewrite IH by done. rewrite len_app.
    change (len (SP :: ?s)) with (Z.of_nat (S (length s))). unfold len. lia.
Qed.

Lemma last_end_snoc (e : Z) (l : list chunk) (c : chunk) :
  last_end e (l ++ [c]) = end_word c.
Proof. unfold last_end. by rewrite last_snoc. Qed.

Lemma fits_from_snoc (limit e : Z) (l : list chunk) (c : chunk) :
  fits_from limit e (l ++ [c])
  <-> fits_from limit e l
      /\ (2 <= end_word c - last_end e l -> size c + 1 <= limit).
Proof.
  revert e. induction l as [|x l IH]; intros e.
  - cbn. unfold last_end. cbn. tauto.
  - cbn [app fits_from]. rewrite IH.
    assert (Hle : last_end (end_word x) l = last_end e (x :: l)).
    { unfold last_end. destruct l as [|y l]; [done|].
      rewrite last_cons_cons. destruct (last (y :: l)) eqn:Hl; [done|].
      by apply last_None in Hl. }
    rewrite Hle. tauto.
Qed.

Lemma fits_from_lookup (limit e : Z) (l : list chunk) (i : nat) (p c : chunk) :
  fits_from limit e l -> l !! i = Some p -> l !! S i = Some c ->
  2 <= end_word c - end_word p -> size c + 1 <= limit.
Proof.
  revert e i. induction l as [|x l IH]; intros e i Hf Hp Hc; [done|].
  destruct Hf as [_ Hf]. destruct i as [|i].
  - cbn in Hp. injection Hp as ->. destruct l as [|y l]; [done|].
    cbn in Hc. injection Hc as ->. by destruct Hf.
  - by eapply IH.
Qed.

Lemma greedy_app (limit : Z) (ws ext : list text) (c : chunk) :
  greedy limit ws c -> greedy limit (ws ++ ext) c.
Proof.
  intros (w & Hw & Hgt). exists w. split; [|done].
  by apply lookup_app_l_Some.
Qed.

(** One round of the loop keeps what it knows about sizes. *)
Lemma chunk_step_sizes (cs ov : Z) (done : list text) (st : chunker)
    (w : text) :
  sizes_inv cs done st ->
  sizes_inv cs (done ++ [w]) (chunk_step cs ov st (len done) w).
Proof.
  destruct st as [chs cur sz]. unfold sizes_inv, chunk_step.
  cbn [chunks current_chunk current_size].
  intros (Hsz & Hgr & Hfit & Hnil & Hcons & Hroom).
  pose proof (len_nonneg done) as Hd.
  assert (Hw1 : len [w] = 1) by reflexivity.
  assert (Hlen : len (done ++ [w]) = len done + 1) by (rewrite len_app; lia).
  assert (Hws : words_size [w] = len w + 1) by (unfold words_size; cbn; lia).
  destruct cur as [|c0 cur].
  - (* the first word *)
    destruct (Hnil eq_refl) as [-> ->]. cbn [is_nil negb].
    rewrite andb_false_r. cbn [chunks current_chunk current_size app].
    split_and!; try done;
      try (rewrite Hsz, Hws; unfold words_size; cbn; lia);
      try (intros; unfold last_end, len; cbn; lia).
  - destruct (Hcons ltac:(done)) as [Hpos Hlast]. cbn [is_nil negb].
    rewrite andb_true_r.
    destruct (Z.gtb_spec (sz + (len w + 1)) cs) as [Hemit|Hemit].
    + (* a chunk is emitted and the next one is seeded *)
      set (ovw := if ov >? 0 then last_items ov (c0 :: cur) else []).
      cbn [chunks current_chunk current_size].
      split_and!.
      * rewrite words_size_app, Hws. lia.
      * apply Forall_app. split.
        { eapply Forall_impl; [exact Hgr|]. intros c. apply greedy_app. }
        constructor; [|constructor]. exists w. split.
        { cbn [end_word make_chunk].
          replace (Z.to_nat (len done - 1 + 1)) with (length done)
            by (unfold len; lia).
          by apply list_lookup_middle. }
        cbn [size make_chunk].
        rewrite <- words_size_join by done. lia.
      * apply fits_from_snoc. split; [done|].
        cbn [end_word size make_chunk]. intros H2.
        rewrite <- words_size_join by done. rewrite <- Hsz. by apply Hroom.
      * by destruct ovw.
      * intros _. rewrite last_end_snoc. cbn [end_word make_chunk]. lia.
      * rewrite last_end_snoc. cbn [end_word make_chunk]. lia.
    + (* the word joins the chunk in progress *)
      cbn [chunks current_chunk current_size].
      split_and!.
      * change ((c0 :: cur) ++ [w]) with (c0 :: cur ++ [w]).
        rewrite Hsz. change (c0 :: cur ++ [w]) with ((c0 :: cur) ++ [w]).
        rewrite words_size_app, Hws. lia.
      * eapply Forall_impl; [exact Hgr|]. intros c. apply greedy_app.
      * done.
      * done.
      * intros _. lia.
      * intros _. lia.
Qed.

Lemma chunk_loop_sizes (cs ov : Z) (rest done : list text) (st : chunker) :
  sizes_inv cs done st ->
  sizes_inv cs (done ++ rest) (chunk_loop cs ov st (len done) rest).
Proof.
  revert done st. induction rest as [|w rest IH]; intros done st Hinv.
  - by rewrite app_nil_r.
  - cbn [chunk_loop].
    replace (len done + 1) with (len (done ++ [w]))
      by (rewrite len_app; unfold len; cbn; lia).
    replace (done ++ w :: rest) with ((done ++ [w]) ++ rest)
      by (by rewrite <- app_assoc).
    apply IH. by apply chunk_step_sizes.
Qed.

Lemma sizes_inv_init (cs : Z) : sizes_inv cs [] (Chunker [] [] 0).
Proof.
  unfold sizes_inv. cbn. split_and!; try done;
    try (intros; unfold last_end, len; cbn; lia).
Qed.

(** The chunks of a text, as the last state of the loop gives them. *)
Lemma chunk_text_final (t : text) (cs ov : Z) :
  let st := chunk_loop cs ov (Chunker [] [] 0) 0 (split t) in
  sizes_inv cs (split t) st
  /\ _chunk_text t cs ov
     = if is_nil (current_chunk st) then chunks st
       else chunks st ++ [make_chunk (current_chunk st) (len (split t))].
Proof.
  cbv zeta. split.
  - apply (chunk_loop_sizes cs ov (split t) [] _ (sizes_inv_init cs)).
  - destruct t as [|c t]; [done|]. reflexivity.
Qed.

(** Greedy packing, first half: a chunk that takes at least two words
    more than its predecessor handed over (two words at all, for the
    first chunk) has a text shorter than [chunk_size] characters. *)
Theorem chunk_text_fits (t : text) (chunk_size overlap : Z) :
  let cs := _chunk_text t chunk_size overlap in
  (forall c, head cs = Some c -> 2 <= word_count c -> size c + 1 <= chunk_size)
  /\ (forall i p c, cs !! i = Some p -> cs !! S i = Some c ->
        2 <= end_word c - end_word p -> size c + 1 <= chunk_size).
Proof.
  cbv zeta.
  destruct (chunk_text_final t chunk_size overlap) as [Hinv Heq].
  set (st := chunk_loop _ _ _ _ _) in *.
  destruct Hinv as (Hsz & _ & Hfit & Hnil & Hcons & Hroom).
  assert (Hall : fits_from chunk_size (-1) (_chunk_text t chunk_size overlap)).
  { rewrite Heq. destruct (current_chunk st) as [|c0 cur] eqn:Hcur; [done|].
    cbn [is_nil]. apply fits_from_snoc. split; [done|].
    cbn [end_word size make_chunk]. intros H2.
    rewrite <- words_size_join by done. rewrite <- Hsz. by apply Hroom. }
  split.
  - intros c Hc Hwc.
    destruct (chunk_text_chunking t chunk_size overlap)
      as [[Hn _]|(Hok & _ & (c' & Hhd & Hc0) & _)].
    { by rewrite Hn in Hc. }
    rewrite Hc in Hhd. injection Hhd as <-.
    destruct (_chunk_text t chunk_size overlap) as [|x l]; [done|].
    cbn in Hc. injection Hc as ->.
    apply Forall_cons in Hok as [[_ _ _ _ Hcount _] _].
    destruct Hall as [Hx _]. apply Hx. lia.
  - intros i p c Hp Hc. by eapply fits_from_lookup.
Qed.

(** Greedy packing, second half: a chunk that has a successor was
    closed only because the next word of the text did not fit: its
    text, a space, that word and a space exceed [chunk_size]. *)
Theorem chunk_text_greedy (t : text) (chunk_size overlap : Z) :
  forall i p c,
    _chunk_text t chunk_size overlap !! i = Some p ->
    _chunk_text t chunk_size overlap !! S i = Some c ->
    exists w, split t !! Z.to_nat (end_word p + 1) = Some w
              /\ size p + 1 + (len w + 1) > chunk_size.
Proof.
  intros i p c Hp Hc.
  destruct (chunk_text_final t chunk_size overlap) as [Hinv Heq].
  set (st := chunk_loop _ _ _ _ _) in *.
  destruct Hinv as (_ & Hgr & _).
  rewrite Heq in Hp, Hc.
  destruct (is_nil (current_chunk st)).
  - rewrite Forall_forall in Hgr. eapply Hgr, list_elem_of_lookup_2, Hp.
  - apply lookup_lt_Some in Hc. rewrite length_app in Hc. cbn in Hc.
    rewrite lookup_app_l in Hp by lia.
    rewrite Forall_forall in Hgr. eapply Hgr, list_elem_of_lookup_2, Hp.
Qed.

End ChunkTextExtras.

Section ChunkTextCounts.
Import Py DocumentProcessor Vocabulary.

Lemma chain_length_end (ov : Z) (l : list chunk) (c e : chunk) :
  chain ov (c :: l) -> last (c :: l) = Some e ->
  end_word c + len l <= end_word e.
Proof.
  revert c. induction l as [|x l IH]; intros c Hch Hl.
  - cbn in Hl. injection Hl as ->. unfold len. cbn. lia.
  - inversion Hch as [| |? ? ? [_ Hlt] Hch']; subst.
    rewrite last_cons_cons in Hl. specialize (IH x Hch' Hl).
    unfold len in *. cbn [length]. lia.
Qed.

Lemma chunking_nil_iff (ov : Z) (ws : list text) (cs : list chunk) :
  chunking ov ws cs -> cs = [] <-> ws = [].
Proof.
  intros [[Hc Hw]|(Hok & _ & _ & (e & Hl & He))].
  - by rewrite Hc, Hw.
  - split.
    + intros Hc. by rewrite Hc in Hl.
    + intros Hw. exfalso. rewrite Hw in He.
      rewrite Forall_forall in Hok.
      destruct (Hok e (last_Some_elem_of _ _ Hl)) as [H0 H1 _ _ _ _].
      change (len []) with 0 in He. lia.
Qed.

Lemma chunking_count (ov : Z) (ws : list text) (cs : list chunk) :
  chunking ov ws cs -> len cs <= len ws.
Proof.
  intros [[Hc Hw]|(Hok & Hch & _ & (e & Hl & He))].
  - by rewrite Hc, Hw.
  - destruct cs as [|c l]; [done|].
    pose proof (chain_length_end _ _ _ _ Hch Hl) as Hle.
    apply Forall_cons in Hok as [[H0 H1 _ _ _ _] _].
    unfold len in *. cbn [length]. lia.
Qed.

Lemma chunking_reconstruct (ov : Z) (ws : list text) (cs : list chunk) :
  Forall is_word ws -> chunking ov ws cs -> reconstruct cs = ws.
Proof.
  intros Hws [[-> ->]|(Hok & Hch & (c0 & Hhd & Hc0) & (e & Hl & He))]; [done|].
  destruct cs as [|c l]; [done|].
  cbn in Hhd. injection Hhd as <-.
  assert (Hee : chunk_ok ws e).
  { rewrite Forall_forall in Hok. apply Hok. by apply last_Some_elem_of. }
  pose proof (chain_last_end _ _ _ _ Hch Hl) as Hce.
  pose proof (Forall_inv Hok) as Hc.
  cbn [reconstruct].
  rewrite (reconstruct_after_slice ov ws l c e) by done.
  rewrite (chunk_words_ok ws c) by done.
  destruct Hc, Hee. rewrite slice_app by lia.
  rewrite Hc0, He. replace (len ws - 1 + 1) with (len ws) by lia.
  apply slice_all.
Qed.

(** The chunker has no chunk exactly for the texts that have no word,
    the texts of whitespace only included. *)
Theorem chunk_text_empty_iff (t : text) (chunk_size overlap : Z) :
  _chunk_text t chunk_size overlap = [] <-> split t = [].
Proof. eapply chunking_nil_iff, chunk_text_chunking. Qed.

(** Every chunk ends at least one word after its predecessor, so a
    text never has more chunks than words. *)
Theorem chunk_text_count_bound (t : text) (chunk_size overlap : Z) :
  len (_chunk_text t chunk_size overlap) <= len (split t).
Proof. eapply chunking_count, chunk_text_chunking. Qed.

(** What a chunk records about itself is true of its text: [size] is
    the number of characters of the text and [word_count] the number
    of its words. *)
Theorem chunk_text_counts (t : text) (chunk_size overlap : Z) :
  Forall (fun c => size c = len (chunk_text_of c)
                   /\ word_count c = len (chunk_words c)
                   /\ 1 <= word_count c)
    (_chunk_text t chunk_size overlap).
Proof.
  pose proof (split_words t) as Hws.
  destruct (chunk_text_chunking t chunk_size overlap)
    as [[Hc _]|(Hok & _ & _ & _)]; [by rewrite Hc|].
  eapply Forall_impl; [exact Hok|]. intros c Hc.
  rewrite (chunk_words_ok _ _ Hws Hc).
  destruct Hc as [H0 H1 H2 _ Hcount Hsize]. split_and!; [done| |lia].
  rewrite slice_range by lia. unfold len in *.
  rewrite length_take, length_drop. lia.
Qed.

End ChunkTextCounts.

(** ** The processing of a document: extraction, cleaning, chunking *)

Section ProcessDocumentExtras.
Import Py DocumentProcessor Vocabulary.

Variable extractor : string -> list Byte.byte -> string -> text.
Variable fallback : list Byte.byte -> string -> text.

Lemma lstrip_nil_iff (s : text) :
  lstrip s = [] <-> Forall (fun c => isspace c = true) s.
Proof.
  induction s as [|c s IH]; [done|]. cbn.
  destruct (isspace c) eqn:Hc.
  - rewrite IH. split; [by constructor|by intros [_ ?]%Forall_cons].
  - split; [done|]. intros [Habs _]%Forall_cons. congruence.
Qed.

Lemma lstrip_suffix (s : text) : exists pre, s = pre ++ lstrip s.
Proof.
  induction s as [|c s [pre IH]]; [by exists []|]. cbn.
  destruct (isspace c); [|by exists []].
  exists (c :: pre). cbn. by rewrite <- IH.
Qed.

Lemma lstrip_head (s : text) (c : char) (s' : text) :
  lstrip s = c :: s' -> isspace c = false.
Proof.
  induction s as [|x s IH]; [done|]. cbn.
  destruct (isspace x) eqn:Hx; [done|]. by intros [= <- _].
Qed.

(** Stripping leaves nothing exactly when the text is whitespace. *)
Lemma strip_nil_iff (s : text) :
  strip s = [] <-> Forall (fun c => isspace c = true) s.
Proof.
  unfold strip. split.
  - intros Hs. apply (f_equal reverse) in Hs.
    rewrite reverse_involutive in Hs. cbn in Hs.
    apply lstrip_nil_iff in Hs. rewrite Forall_reverse in Hs.
    destruct (lstrip s) as [|c s'] eqn:Hl; [by apply lstrip_nil_iff|].
    apply lstrip_head in Hl. apply Forall_cons in Hs as [Hc _]. congruence.
  - intros Hs. apply lstrip_nil_iff in Hs. by rewrite Hs.
Qed.

Lemma split_nil_iff (s : text) :
  split s = [] <-> Forall (fun c => isspace c = true) s.
Proof.
  induction s as [|c s IH]; [done|]. cbn.
  destruct (isspace c) eqn:Hc.
  - rewrite IH. split; [by constructor|by intros [_ ?]%Forall_cons].
  - split.
    + destruct (in_word s); [by destruct (split s)|done].
    + intros [Habs _]%Forall_cons. congruence.
Qed.

Lemma no_text_iff (raw : text) :
  is_nil raw || is_nil (strip raw) = true <-> split raw = [].
Proof.
  rewrite split_nil_iff, <- strip_nil_iff.
  destruct raw as [|c raw]; [done|]. cbn [is_nil orb].
  by destruct (strip (c :: raw)).
Qed.

(** [process_document] fails with "no text content" exactly when the
    extracted text has no word; the MIME type matters only for the
    choice of the extractor, and an unsupported type is no failure. *)
Theorem process_document_no_text_iff (file_content : list Byte.byte)
    (mime_type filename : string) (chunk_size overlap : Z) :
  process_document extractor fallback file_content mime_type filename
    chunk_size overlap = Some NoTextExtracted
  <-> split (extract_text extractor fallback file_content mime_type filename)
      = [].
Proof.
  unfold process_document. rewrite <- no_text_iff.
  destruct (is_nil _ || is_nil _); [done|].
  rewrite clean_text_eq. split; discriminate.
Qed.

(** When [process_document] succeeds, there is at least one chunk and
    no more chunks than words, the chunks carry the words of the
    extracted text, all of them and in order, the cleaned text is
    normalized, and the counts are those of the chunks and the
    texts. *)
Theorem process_document_words (file_content : list Byte.byte)
    (mime_type filename : string) (chunk_size overlap : Z) :
  let raw := extract_text extractor fallback file_content mime_type filename in
  match process_document extractor fallback file_content mime_type filename
          chunk_size overlap with
  | Some NoTextExtracted => split raw = []
  | Some (Processed raw_text cleaned_text chunks total_chunks total_tokens
            info_chunk_size info_overlap original_size cleaned_size) =>
      raw_text = raw
      /\ _clean_text raw = Some cleaned_text
      /\ _clean_text cleaned_text = Some cleaned_text
      /\ chunks = _chunk_text cleaned_text chunk_size overlap
      /\ reconstruct chunks = split raw
      /\ 1 <= total_chunks <= len (split raw)
      /\ total_chunks = len chunks
      /\ 4 * total_tokens <= cleaned_size < 4 * total_tokens + 4
      /\ cleaned_size = len cleaned_text /\ original_size = len raw
  | None => False
  end.
Proof.
  cbv zeta. unfold process_document.
  set (raw := extract_text extractor fallback file_content mime_type filename).
  pose proof (no_text_iff raw) as Hnone.
  destruct (is_nil raw || is_nil (strip raw)) eqn:Hnil.
  { by apply Hnone. }
  rewrite clean_text_eq.
  set (y := join [NL] (clean_lines (split_on NL raw))).
  pose proof (clean_words raw) as Hwords. fold y in Hwords.
  assert (Hfix : _clean_text y = Some y)
    by apply clean_text_fixed, clean_lines_lines.
  assert (Hne : split raw <> []).
  { intros Hs. apply Hnone in Hs. congruence. }
  pose proof (chunk_text_chunking y chunk_size overlap) as Hch.
  rewrite Hwords in Hch.
  pose proof (chunking_reconstruct _ _ _ (split_words raw) Hch) as Hrec.
  pose proof (chunking_count _ _ _ Hch) as Hcnt.
  pose proof (chunking_nil_iff _ _ _ Hch) as Hemp.
  split_and!; try done.
  - destruct (_chunk_text y chunk_size overlap);
      [exfalso; by apply Hne, Hemp|].
    unfold len. cbn. lia.
  - apply Z.mul_div_le. lia.
  - pose proof (Z.mod_pos_bound (len y) 4 ltac:(lia)).
    pose proof (Z.div_mod (len y) 4 ltac:(lia)). lia.
Qed.

End ProcessDocumentExtras.

(** ** More on the character-window chunker and on the embedder *)

Section ChunkDocumentExtras.
Import Py VectorService Vocabulary.

Lemma slice_len_le {A : Type} (a b : Z) (l : list A) :
  a <= b -> len (slice a b l) <= b - a.
Proof.
  intros Hab. unfold slice, clip, len. rewrite length_take, length_drop.
  destruct (Z.ltb_spec a 0), (Z.ltb_spec b 0); lia.
Qed.

Lemma lstrip_len (s : text) : len (lstrip s) <= len s.
Proof.
  induction s as [|c s IH]; [done|]. cbn [lstrip].
  destruct (isspace c); [|lia]. unfold len in *. cbn [length]. lia.
Qed.

Lemma strip_len (s : text) : len (strip s) <= len s.
Proof.
  unfold strip. pose proof (lstrip_len s). pose proof (lstrip_len (reverse (lstrip s))).
  unfold len in *. rewrite length_reverse in *. lia.
Qed.

(** A stripped text is empty or begins and ends with a character that
    is no whitespace. *)
Lemma strip_shape (s : text) : strip s = [] \/ trimmed (strip s).
Proof.
  unfold strip. destruct (lstrip s) as [|c u] eqn:Hu; [by left|].
  pose proof (lstrip_head _ _ _ Hu) as Hc.
  destruct (lstrip (reverse (c :: u))) as [|d v] eqn:Hv.
  { apply lstrip_nil_iff in Hv. rewrite Forall_reverse in Hv.
    apply Forall_cons in Hv as [Hv _]. congruence. }
  right. pose proof (lstrip_head _ _ _ Hv) as Hd.
  destruct (lstrip_suffix (reverse (c :: u))) as [pre Hpre].
  rewrite Hv in Hpre. apply (f_equal reverse) in Hpre.
  rewrite reverse_involutive, reverse_app in Hpre.
  rewrite reverse_cons in Hpre |- *. split.
  - destruct (reverse v) as [|y w]; cbn in Hpre |- *.
    + by exists d, [].
    + injection Hpre as Hcy _. exists y, (w ++ [d]). split; congruence.
  - by exists (reverse v), d.
Qed.

Lemma find_sentence_end_le (content : text) (count : nat) (i e : Z) :
  find_sentence_end content i count = Found e ->
  i - Z.of_nat count + 2 <= e <= i + 1.
Proof.
  revert i. induction count as [|k IH]; intros i; [done|].
  cbn [find_sentence_end]. destruct (item content i) as [c|]; [|done].
  destruct (is_sentence_end c); [intros [= <-]; lia|].
  intros H%IH. lia.
Qed.

(** What a round adds to the chunks: nothing, or one chunk that is
    stripped, not empty and, for a chunk size that is not negative, no
    longer than the window. *)
Lemma chunk_document_round_chunks (P : text -> Prop) (content : text)
    (chunk_size overlap start : Z) (chunks : list text) :
  (forall c, c <> [] -> strip c = c ->
     (0 <= chunk_size -> len c <= chunk_size) -> P c) ->
  Forall P chunks ->
  match chunk_document_round content chunk_size overlap start chunks with
  | Continue _ chunks' | Break chunks' => Forall P chunks'
  | RoundRaised => True
  end.
Proof.
  intros HP Hall. unfold chunk_document_round.
  set (end0 := start + chunk_size).
  assert (Hsnap : forall e,
    (if end0 <? len content
     then match find_sentence_end content (end0 - 1)
                  (Z.to_nat (end0 - 1 - Z.max start (end0 - 100))) with
          | Found e => Some e
          | NotFound => Some end0
          | IndexError => None
          end
     else Some end0) = Some e ->
    e <= end0 /\ (0 <= chunk_size -> start <= e)).
  { intros e. destruct (end0 <? len content);
      [|intros [= <-]; subst end0; lia].
    destruct (find_sentence_end _ _ _) eqn:Hf;
      [|intros [= <-]; subst end0; lia|done].
    intros [= <-]. apply find_sentence_end_le in Hf. lia. }
  destruct (if end0 <? len content then _ else _) as [e|]; [|done].
  destruct (Hsnap e eq_refl) as [Hle Hge].
  assert (Hnew : Forall P
            match strip (slice start e content) with
            | [] => chunks
            | _ :: _ => chunks ++ [strip (slice start e content)]
            end).
  { destruct (strip (slice start e content)) as [|c s] eqn:Hs; [done|].
    apply Forall_app. split; [done|]. constructor; [|constructor].
    rewrite <- Hs. apply HP.
    - by rewrite Hs.
    - destruct (strip_shape (slice start e content)) as [Hn|Ht];
        [congruence|]. by apply strip_trimmed.
    - intros Hcs. pose proof (strip_len (slice start e content)).
      pose proof (slice_len_le start e content (Hge Hcs)).
      subst end0. lia. }
  by destruct (e - overlap >=? len content).
Qed.

Lemma chunk_document_loop_chunks (P : text -> Prop) (fuel : nat)
    (content : text) (chunk_size overlap start : Z) (chunks : list text) :
  (forall c, c <> [] -> strip c = c ->
     (0 <= chunk_size -> len c <= chunk_size) -> P c) ->
  Forall P chunks ->
  match chunk_document_loop fuel content chunk_size overlap start chunks with
  | Returned chunks' => Forall P chunks'
  | _ => True
  end.
Proof.
  intros HP. revert start chunks.
  induction fuel as [|fuel IH]; intros start chunks Hall; [done|].
  cbn [chunk_document_loop]. destruct (start <? len content); [|done].
  pose proof (chunk_document_round_chunks P content chunk_size overlap start
                chunks HP Hall) as Hr.
  destruct (chunk_document_round _ _ _ _ _); [by apply IH|done|done].
Qed.

Lemma chunk_document_bounded (fuel : nat) (content : text)
    (chunk_size overlap : Z) :
  0 <= chunk_size ->
  match chunk_document fuel content chunk_size overlap with
  | Returned chunks => Forall (fun c => len c <= chunk_size) chunks
  | _ => True
  end.
Proof.
  intros Hcs. unfold chunk_document.
  destruct (Z.leb_spec (len content) chunk_size); [by repeat constructor|].
  apply chunk_document_loop_chunks; [|done]. intros c _ _ Hc. by apply Hc.
Qed.

(** For a chunk size that is not negative, no chunk that
    [chunk_document] returns is longer than [chunk_size] characters,
    whatever the text and the overlap. *)
Theorem chunk_document_chunk_size (fuel : nat) (content : text)
    (chunk_size overlap : Z) :
  0 <= chunk_size ->
  match chunk_document fuel content chunk_size overlap with
  | Returned chunks => Forall (fun c => len c <= chunk_size) chunks
  | _ => True
  end.
Proof. apply chunk_document_bounded. Qed.

(** A text no longer than [chunk_size] is returned as it is, as the
    one chunk; the chunks of a longer text are stripped of leading and
    trailing whitespace and none of them is empty. *)
Theorem chunk_document_chunk_shape (fuel : nat) (content : text)
    (chunk_size overlap : Z) :
  match chunk_document fuel content chunk_size overlap with
  | Returned chunks =>
      (len content <= chunk_size /\ chunks = [content])
      \/ (chunk_size < len content
          /\ Forall (fun c => c <> [] /\ strip c = c) chunks)
  | _ => True
  end.
Proof.
  unfold chunk_document.
  destruct (Z.leb_spec (len content) chunk_size); [by left|].
  pose proof (chunk_document_loop_chunks
                (fun c => c <> [] /\ strip c = c) fuel content chunk_size
                overlap 0 []) as Hl.
  destruct (chunk_document_loop _ _ _ _ _ _); [|done|done].
  right. split; [done|]. by apply Hl.
Qed.

End ChunkDocumentExtras.

(** ** The keyword search of the document store *)

Section KeywordSearchExtras.
Import Py DocumentStorage Vocabulary.

Variable lower : text -> text.

Lemma term_fold_plain (lq cl : text) (terms : list text) (acc : Z) :
  Forall (fun term => term <> lq) terms ->
  foldl (fun score term =>
           if contains term cl then
             let score := score + 1 in
             if bool_decide (term = lq) then score + 2 else score
           else score) acc terms
  = acc + len (List.filter (fun term => contains term cl) terms).
Proof.
  intros H. revert acc. induction H as [|term terms Hne _ IH]; intros acc.
  - unfold len. cbn. lia.
  - cbn [foldl List.filter]. rewrite IH. destruct (contains term cl).
    + cbv zeta. rewrite bool_decide_eq_false_2 by done.
      unfold len. cbn [length]. lia.
    + lia.
Qed.

(** A query term that is the whole query: the query is one word. *)
Lemma split_self (s term : text) :
  term ∈ split s -> term = s -> split s = [s].
Proof.
  intros Hin ->. apply split_word. pose proof (split_words s) as H.
  rewrite Forall_forall in H. by apply H.
Qed.

Lemma relevance_eq (query : text) (chunk : document_chunk) (c : text) :
  str_of (content chunk) = Some c ->
  relevance lower query chunk
  = Some (if bool_decide (split (lower query) = [lower query])
          then 3 * term_hits lower query c else term_hits lower query c).
Proof.
  intros Hc. unfold relevance, term_hits. rewrite Hc. f_equal.
  case_bool_decide as Hone.
  - rewrite Hone. cbn [foldl List.filter]. destruct (contains _ _); [|done].
    cbv zeta. by rewrite bool_decide_eq_true_2.
  - rewrite term_fold_plain; [lia|]. apply Forall_forall.
    intros term Hin Heq. apply Hone. by apply (split_self _ term).
Qed.

Lemma relevance_pos (query : text) (chunk : document_chunk) (score : Z) :
  relevance lower query chunk = Some score ->
  (score >? 0) = mentions lower query chunk.
Proof.
  unfold mentions. destruct (str_of (content chunk)) as [c|] eqn:Hc.
  - rewrite (relevance_eq _ _ c Hc). intros [= <-].
    assert (0 <= term_hits lower query c) by apply len_nonneg.
    case_bool_decide;
      destruct (Z.gtb_spec (3 * term_hits lower query c) 0),
               (Z.gtb_spec (term_hits lower query c) 0),
               (Z.ltb_spec 0 (term_hits lower query c)); lia.
  - unfold relevance. by rewrite Hc.
Qed.

Lemma score_chunks_None (query : text) (l : list document_chunk) :
  score_chunks lower query l = None
  <-> Exists (fun c => str_of (content c) = None) l.
Proof.
  induction l as [|chunk l IH]; cbn [score_chunks].
  - split; [done|by intros ?%Exists_nil].
  - rewrite Exists_cons, <- IH. unfold relevance.
    destruct (str_of (content chunk)) as [c|]; [|by split; [left|]].
    destruct (score_chunks lower query l); split; try done.
    + by intros [|].
    + by right.
Qed.

Lemma score_chunks_Some (query : text) (l : list document_chunk)
    (scored : list scored_chunk) :
  score_chunks lower query l = Some scored ->
  map scored_document scored = List.filter (mentions lower query) l
  /\ Forall (fun x => relevance lower query (scored_document x)
                      = Some (relevance_score x)) scored.
Proof.
  revert scored. induction l as [|chunk l IH]; intros scored; cbn [score_chunks].
  - by intros [= <-].
  - destruct (relevance lower query chunk) as [score|] eqn:Hr; [|done].
    destruct (score_chunks lower query l) as [rest|]; [|done].
    destruct (IH rest eq_refl) as [Hmap Hall]. intros [= <-].
    cbn [List.filter]. rewrite <- (relevance_pos _ _ _ Hr).
    destruct (score >? 0); [|done]. cbn [map scored_document].
    split; [by rewrite Hmap|by constructor].
Qed.

Lemma insert_by_relevance_perm (x : scored_chunk) (l : list scored_chunk) :
  insert_by_relevance x l ≡ₚ x :: l.
Proof.
  induction l as [|y l IH]; [done|]. cbn.
  destruct (_ <? _); [|done]. rewrite IH. apply Permutation_swap.
Qed.

Lemma sort_by_relevance_perm (l : list scored_chunk) :
  sort_by_relevance l ≡ₚ l.
Proof.
  induction l as [|x l IH]; [done|]. cbn.
  by rewrite insert_by_relevance_perm, IH.
Qed.

Lemma insert_by_relevance_sorted (x : scored_chunk) (l : list scored_chunk) :
  StronglySorted ranked_ge l -> StronglySorted ranked_ge (insert_by_relevance x l).
Proof.
  induction 1 as [|y l Hs IH Hy]; cbn [insert_by_relevance].
  - by repeat constructor.
  - destruct (Z.ltb_spec (relevance_score x) (relevance_score y)).
    + constructor; [done|]. rewrite insert_by_relevance_perm.
      constructor; [|done]. unfold ranked_ge. lia.
    + constructor; [by constructor|]. constructor; [unfold ranked_ge; lia|].
      eapply Forall_impl; [exact Hy|]. unfold ranked_ge. intros z. cbn. lia.
Qed.

Lemma sort_by_relevance_sorted (l : list scored_chunk) :
  StronglySorted ranked_ge (sort_by_relevance l).
Proof.
  induction l as [|x l IH]; [constructor|].
  cbn. by apply insert_by_relevance_sorted.
Qed.

Lemma StronglySorted_take {A : Type} (R : A -> A -> Prop) (n : nat)
    (l : list A) :
  StronglySorted R l -> StronglySorted R (take n l).
Proof.
  intros Hs. revert n. induction Hs as [|x l Hs IH Hx]; intros [|n]; cbn;
    try constructor; [apply IH|by apply Forall_take].
Qed.

(** Chunks of one and the same score are left where they are. *)
Lemma sort_by_relevance_same (s : Z) (l : list scored_chunk) :
  Forall (fun x => relevance_score x = s) l -> sort_by_relevance l = l.
Proof.
  induction 1 as [|x l Hx Hl IH]; [done|].
  cbn [sort_by_relevance foldr]. fold (sort_by_relevance l). rewrite IH.
  destruct Hl as [|y l Hy _]; [done|]. cbn [insert_by_relevance].
  destruct (Z.ltb_spec (relevance_score x) (relevance_score y)); [lia|done].
Qed.

(** The exact-match bonus is given to one-word queries only: a chunk
    scores three points when the query is one word that occurs in it,
    and otherwise one point for each query term that occurs in it. A
    chunk whose content is no string makes the scoring fail. *)
Theorem relevance_bonus (query : text) (chunk : document_chunk) :
  relevance lower query chunk
  = match str_of (content chunk) with
    | Some c =>
        Some (if bool_decide (split (lower query) = [lower query])
              then 3 * term_hits lower query c
              else term_hits lower query c)
    | None => None
    end.
Proof.
  destruct (str_of (content chunk)) as [c|] eqn:Hc; [by apply relevance_eq|].
  unfold relevance. by rewrite Hc.
Qed.


(** A one-word query is not ranked: every chunk returned scores 3,
    and the chunks returned are the first [limit] of the searched
    chunks in which the word occurs, in the order in which they were
    retrieved. *)
Theorem search_documents_one_word
    (global_chunks thread_chunks agent_chunks : list document_chunk)
    (query : text) (kb_type : string) (thread_id agent_id : option string)
    (limit : Z) :
  split (lower query) = [lower query] ->
  match search_documents lower global_chunks thread_chunks agent_chunks
          query kb_type thread_id agent_id limit with
  | Some r =>
      map scored_document (top_results r)
      = slice_to limit
          (List.filter (mentions lower query)
             (searched_chunks kb_type thread_id agent_id
                global_chunks thread_chunks agent_chunks))
      /\ Forall (fun x => relevance_score x = 3) (top_results r)
  | None => True
  end.
Proof.
  intros Hone. unfold search_documents.
  set (searched := searched_chunks _ _ _ _ _ _).
  destruct (score_chunks lower query searched) as [scored|] eqn:Hs; [|done].
  destruct (score_chunks_Some _ _ _ Hs) as [Hmap Hall].
  cbn [top_results].
  assert (Hthree : Forall (fun x => relevance_score x = 3) scored).
  { assert (Hin : Forall (fun x => mentions lower query (scored_document x) = true)
                    scored).
    { apply Forall_forall. intros x Hx.
      assert (H : scored_document x ∈ map scored_document scored)
        by (apply list_elem_of_In, in_map, list_elem_of_In, Hx).
      rewrite Hmap in H. by apply list_elem_of_In, filter_In in H as [_ H]. }
    rewrite Forall_forall in Hall, Hin |- *. intros x Hx.
    specialize (Hall x Hx). specialize (Hin x Hx). unfold mentions in Hin.
    destruct (str_of (content (scored_document x))) as [c|] eqn:Hc; [|done].
    rewrite (relevance_eq _ _ c Hc), bool_decide_eq_true_2 in Hall by done.
    injection Hall as <-. unfold term_hits in *. rewrite Hone in *.
    cbn [List.filter] in *. destruct (contains _ _); [done|].
    by vm_compute in Hin. }
  rewrite (sort_by_relevance_same 3 scored Hthree). split.
  - unfold slice_to. rewrite <- Hmap. unfold len.
    by rewrite length_map, <- fmap_take.
  - unfold slice_to. by apply Forall_take.
Qed.

End KeywordSearchExtras.

(** ** The statistics of the vector store *)

Section StatsExtras.
Import Py VectorService Vocabulary.

Lemma counts_total_insert (m : gmap (option string) Z) (k : option string)
    (v : Z) :
  m !! k = None -> counts_total (<[k := v]> m) = v + counts_total m.
Proof.
  intros H. unfold counts_total. rewrite map_fold_insert_L; [done| |done].
  intros. lia.
Qed.

Lemma counts_total_update (m : gmap (option string) Z) (k : option string)
    (v v' : Z) :
  m !! k = Some v -> counts_total (<[k := v']> m) = v' - v + counts_total m.
Proof.
  intros H. rewrite <- insert_delete_eq.
  rewrite counts_total_insert by apply lookup_delete_eq.
  unfold counts_total.
  rewrite (map_fold_delete_L _ _ k v m); [lia| |done]. intros. lia.
Qed.

Lemma count_kb_type_eq (m : gmap (option string) Z) (r : stats_row) :
  count_kb_type m r
  = <[kb_type_key r := default 0 (m !! kb_type_key r) + 1]> m.
Proof.
  unfold count_kb_type. destruct (m !! kb_type_key r) as [v|] eqn:Hm; cbn.
  - rewrite <- (insert_id m _ _ Hm) at 1. by rewrite alter_insert_eq.
  - by rewrite alter_insert_eq.
Qed.

Lemma count_kb_type_total (m : gmap (option string) Z) (r : stats_row) :
  counts_total (count_kb_type m r) = counts_total m + 1.
Proof.
  rewrite count_kb_type_eq. destruct (m !! kb_type_key r) as [v|] eqn:Hm; cbn.
  - rewrite (counts_total_update _ _ v) by done. lia.
  - rewrite counts_total_insert by done. lia.
Qed.

Lemma foldl_count_total (data : list stats_row) (m : gmap (option string) Z) :
  counts_total (foldl count_kb_type m data) = counts_total m + len data.
Proof.
  revert m. induction data as [|r data IH]; intros m; cbn [foldl].
  - unfold len. cbn. lia.
  - rewrite IH, count_kb_type_total. unfold len. cbn [length]. lia.
Qed.

Lemma rows_of_type_cons (k : option string) (r : stats_row)
    (data : list stats_row) :
  rows_of_type k (r :: data)
  = (if bool_decide (kb_type_key r = k) then 1 else 0) + rows_of_type k data.
Proof.
  unfold rows_of_type, len. cbn [List.filter].
  destruct (bool_decide _); cbn [length]; lia.
Qed.

Lemma foldl_count_lookup (data : list stats_row) (m : gmap (option string) Z)
    (k : option string) :
  foldl count_kb_type m data !! k
  = if rows_of_type k data =? 0 then m !! k
    else Some (default 0 (m !! k) + rows_of_type k data).
Proof.
  revert m. induction data as [|r data IH]; intros m; cbn [foldl]; [done|].
  rewrite IH, count_kb_type_eq, rows_of_type_cons.
  assert (Hn : 0 <= rows_of_type k data) by apply len_nonneg.
  revert Hn. generalize (rows_of_type k data). intros n Hn.
  case_bool_decide as Hk.
  - subst k. rewrite lookup_insert_eq. cbn [default]. unfold id.
    destruct (Z.eqb_spec n 0), (Z.eqb_spec (1 + n) 0); try lia; f_equal; lia.
  - rewrite lookup_insert_ne by done. by rewrite Z.add_0_l.
Qed.

Lemma sum_tokens_None (acc : Z) (data : list stats_row) :
  sum_tokens acc data = None
  <-> Exists (fun r => stats_chunk_tokens r = Null) data.
Proof.
  revert acc. induction data as [|r data IH]; intros acc; cbn [sum_tokens].
  - split; [done|by intros ?%Exists_nil].
  - rewrite Exists_cons. destruct (stats_chunk_tokens r).
    + rewrite IH. split; [by right|by intros [|]].
    + split; [by left|done].
    + rewrite IH. split; [by right|by intros [|]].
Qed.


End StatsExtras.

(** ** Ingestion into the vector store *)

Section IngestExtras.
Import Py VectorService Vocabulary.

Variable encode : list text -> option (list embedding).

Lemma has_ws_pair_prefix (a b : text) :
  has_ws_pair (a ++ b) = false -> has_ws_pair a = false.
Proof.
  induction a as [|c a IH]; [done|]. destruct a as [|d a]; [done|].
  cbn [app]. rewrite !has_ws_pair_cons.
  intros [Hcd Hrest]%orb_false_elim. rewrite Hcd. by apply IH.
Qed.

(** The text that is embedded has at most 512 characters; it is the
    beginning of the words of the chunk joined by single spaces, so no
    two whitespace characters stand side by side in it. *)
Theorem preprocess_text_bound (t : text) :
  len (_preprocess_text t) <= 512
  /\ _preprocess_text t `prefix_of` join [SP] (split t)
  /\ has_ws_pair (_preprocess_text t) = false.
Proof.
  assert (Hpre : _preprocess_text t `prefix_of` join [SP] (split t)).
  { unfold _preprocess_text. destruct (_ >? _); [|done].
    unfold slice_to. apply prefix_take. }
  split_and!; [|done|].
  - unfold _preprocess_text.
    destruct (Z.gtb_spec (len (join [SP] (split t))) 512); [|lia].
    by apply slice_to_len.
  - destruct Hpre as [rest Hrest]. apply (has_ws_pair_prefix _ rest).
    rewrite <- Hrest. apply has_ws_pair_join.
    + eapply Forall_impl; [apply split_words|]. apply word_trimmed.
    + eapply Forall_impl; [apply split_words|]. apply has_ws_pair_word.
Qed.

Lemma collect_records_len (k : Z) (chunks : list text)
    (embeddings : list (option embedding)) :
  len (collect_records k chunks embeddings) <= len chunks.
Proof.
  revert k embeddings. unfold len.
  induction chunks as [|c chunks IH]; intros k [|[e|] embeddings];
    cbn [collect_records length]; try lia.
  - specialize (IH (k + 1) embeddings). lia.
  - specialize (IH (k + 1) embeddings). lia.
Qed.

Lemma collect_records_sorted (k : Z) (chunks : list text)
    (embeddings : list (option embedding)) :
  StronglySorted (fun a b => chunk_index a < chunk_index b)
    (collect_records k chunks embeddings).
Proof.
  revert k embeddings.
  induction chunks as [|c chunks IH]; intros k [|[e|] embeddings];
    cbn [collect_records]; try constructor; try apply IH.
  apply Forall_forall. intros r Hr.
  apply collect_records_elem in Hr as (i & c' & e' & _ & _ & ->). cbn. lia.
Qed.


End IngestExtras.

(** ** Embeddings of another dimension *)

Section DimensionExtras.
Import Py VectorService Vocabulary.

Lemma cosine_similarity_mismatch (vec1 vec2 : embedding) :
  length vec1 <> length vec2 ->
  _calculate_cosine_similarity vec1 vec2 = 0%float.
Proof.
  intros Hlen. unfold _calculate_cosine_similarity.
  destruct (_ || _); [done|].
  by destruct (Nat.eqb_spec (length vec1) (length vec2)).
Qed.

Lemma ltb_not_geb (x y : float) :
  PrimFloat.ltb x y = true -> geb x y = false.
Proof.
  unfold geb. rewrite leb_spec, ltb_spec.
  unfold SpecFloat.SFltb, SpecFloat.SFleb.
  rewrite (SFcompare_antisym (Prim2SF x) (Prim2SF y)).
  by destruct (SpecFloat.SFcompare _ _) as [[]|].
Qed.

(** Vectors of different lengths have the similarity 0.0, so with a
    threshold above zero the search returns no row whose embedding has
    another dimension than the query embedding. *)
Theorem search_skips_other_dimensions (q : embedding) (rows : list row)
    (similarity_threshold : float) (max_results : Z) :
  PrimFloat.ltb 0 similarity_threshold = true ->
  Forall (fun r => forall e, row_embedding r = Some e -> length e <> length q)
    rows ->
  search_knowledge_base _calculate_cosine_similarity (Some q) (Some rows)
    similarity_threshold max_results = [].
Proof.
  intros Hthr Hrows.
  assert (Hnone : relevant_chunks _calculate_cosine_similarity q
                    similarity_threshold rows = []).
  { induction Hrows as [|r rows Hr _ IH]; [done|]. cbn [relevant_chunks].
    destruct (row_embedding r) as [[|x e]|] eqn:He; try done.
    rewrite cosine_similarity_mismatch.
    - by rewrite (ltb_not_geb _ _ Hthr).
    - intros Heq. by apply (Hr (x :: e)). }
  unfold search_knowledge_base. destruct q as [|x q]; [done|].
  destruct rows as [|r rows]; [done|]. rewrite Hnone. unfold slice_to.
  apply take_nil.
Qed.

End DimensionExtras.

(** ** From the upload gate to the processor *)

Section UploadExtras.
Import Py DocumentProcessor Api.

Variable extractor : string -> list Byte.byte -> string -> text.
Variable fallback : list Byte.byte -> string -> text.

(** An upload that passes the checks of the endpoint has a MIME type
    the processor supports and at most 50 MB, so the processor
    extracts its text with the extractor of that type and never with
    the fallback decoder. *)
Theorem upload_document_uses_extractor (enabled : bool)
    (content_type : option string) (size : Z) :
  upload_document enabled content_type size = Proceeds ->
  exists t,
    content_type = Some t /\ is_format_supported t = true
    /\ size <= 50 * 1024 * 1024
    /\ forall file_content filename,
         extract_text extractor fallback file_content t filename
         = extractor t file_content filename.
Proof.
  intros (_ & (t & -> & Ht) & Hsize)%upload_document_accepts.
  exists t. pose proof allowed_types_supported as Hall.
  rewrite Forall_forall in Hall. specialize (Hall t Ht).
  split_and!; [done|done|done|]. intros file_content filename.
  unfold extract_text. unfold is_format_supported in Hall.
  by rewrite Hall.
Qed.

End UploadExtras.

(** ** The retrieval of the stored chunks *)

Section GetChunksExtras.
Import Py DocumentStorage Vocabulary.

Lemma format_chunk_Some (r : row) (c : document_chunk) :
  format_chunk r = Some c -> formats r c.
Proof.
  unfold format_chunk, formats.
  destruct (r !! "id") as [i|]; [|done].
  destruct (r !! "content") as [t|]; [|done].
  destruct (metadata_of r) as [sm|]; [|done].
  destruct (r !! "created_at") as [d|]; [|done].
  by intros [= <-].
Qed.

Lemma format_chunk_None (r : row) : format_chunk r = None -> malformed r.
Proof.
  unfold format_chunk, malformed, metadata_of.
  destruct (r !! "id") as [i|]; [|by left].
  destruct (r !! "content") as [t|]; [|by right; left].
  destruct (r !! "source_metadata") as [[s|o]|];
    [by right; right; right; exists s| |];
    (destruct (r !! "created_at") as [d|]; [done|by right; right; left]).
Qed.

(** The retrieval is all or nothing. For a valid knowledge-base type
    it returns one chunk for each row the query returned, in the
    order of the rows, with the row's id, content and creation time
    and the metadata entries or their defaults; or it returns no chunk
    at all, because one row lacks [id], [content] or [created_at] or
    holds a [source_metadata] that is no dictionary. For any other
    knowledge-base type it returns no chunk. *)
Theorem get_document_chunks_all_or_nothing (kb_type : string)
    (data : list row) :
  (table_of kb_type <> None
   /\ Forall2 formats data (get_document_chunks kb_type data))
  \/ (get_document_chunks kb_type data = []
      /\ (table_of kb_type = None \/ Exists malformed data)).
Proof.
  unfold get_document_chunks. destruct (table_of kb_type) as [t|].
  - destruct (mapM format_chunk data) as [chunks|] eqn:Hm.
    + left. split; [done|]. apply mapM_Some_1 in Hm.
      eapply Forall2_impl; [exact Hm|]. apply format_chunk_Some.
    + right. split; [done|]. right. apply mapM_None_1 in Hm.
      eapply Exists_impl; [exact Hm|]. apply format_chunk_None.
  - right. split; [done|]. by left.
Qed.

End GetChunksExtras.

(** ** Storing a document *)

Section StoreDocumentExtras.
Import Py DocumentProcessor DocumentStorage Vocabulary.

Variable extractor : string -> list Byte.byte -> string -> text.
Variable fallback : list Byte.byte -> string -> text.
Variable utcnow : nat -> string.
Variable queue_insert : processing_data -> insert_reply.
Variable chunk_insert : table_name -> chunk_data -> insert_reply.

(** The two results of the processor. *)
Lemma process_document_cases (file_content : list Byte.byte)
    (mime_type filename : string) (chunk_size overlap : Z) :
  let raw := extract_text extractor fallback file_content mime_type filename in
  (split raw = []
   /\ process_document extractor fallback file_content mime_type filename
        chunk_size overlap = Some NoTextExtracted)
  \/ (split raw <> []
      /\ exists cleaned c chunks,
           _clean_text raw = Some cleaned
           /\ _chunk_text cleaned chunk_size overlap = c :: chunks
           /\ process_document extractor fallback file_content mime_type
                filename chunk_size overlap
              = Some (Processed raw cleaned (c :: chunks) (len (c :: chunks))
                        (len cleaned / 4) chunk_size overlap (len raw)
                        (len cleaned))).
Proof.
  cbv zeta. unfold process_document.
  set (raw := extract_text extractor fallback file_content mime_type filename).
  pose proof (no_text_iff raw) as Hnone.
  destruct (is_nil raw || is_nil (strip raw)) eqn:Hnil.
  { left. split; [by apply Hnone|done]. }
  right. assert (Hne : split raw <> []).
  { intros Hs. apply Hnone in Hs. congruence. }
  split; [done|]. rewrite clean_text_eq.
  set (y := join [NL] (clean_lines (split_on NL raw))).
  pose proof (clean_words raw) as Hwords. fold y in Hwords.
  pose proof (chunk_text_chunking y chunk_size overlap) as Hch.
  rewrite Hwords in Hch.
  pose proof (chunking_nil_iff _ _ _ Hch) as Hemp.
  destruct (_chunk_text y chunk_size overlap) as [|c chunks] eqn:Hcs.
  { exfalso. by apply Hne, Hemp. }
  by exists y, c, chunks.
Qed.

Lemma store_chunks_unknown (account_id : string)
    (thread_id agent_id : option string) (kb_type filename queue_id : string)
    (total i : Z) (tick : nat) (chunks : list chunk) :
  table_of kb_type = None ->
  store_chunks utcnow chunk_insert account_id thread_id agent_id kb_type
    filename queue_id total i tick chunks = ([], []).
Proof.
  intros Ht. revert i tick.
  induction chunks as [|c chunks IH]; intros i tick; [done|].
  cbn [store_chunks]. by rewrite IH, Ht.
Qed.

Lemma store_chunks_known (account_id : string)
    (thread_id agent_id : option string) (kb_type filename queue_id : string)
    (total i : Z) (tick : nat) (chunks : list chunk) (table : table_name) :
  table_of kb_type = Some table ->
  let r := store_chunks utcnow chunk_insert account_id thread_id agent_id
             kb_type filename queue_id total i tick chunks in
  map inserted_content r.1 = map (fun c => Some (chunk_text_of c)) chunks
  /\ Forall (is_upload_of account_id filename queue_id table) r.1
  /\ len r.2 = len (List.filter (answered chunk_insert) r.1).
Proof.
  intros Ht. cbv zeta. revert i tick.
  induction chunks as [|c chunks IH]; intros i tick; [done|].
  cbn [store_chunks].
  destruct (IH (i + 1) (S tick)) as (Hmap & Hall & Hlen).
  destruct (store_chunks _ _ _ _ _ _ _ _ _ _ _ chunks) as [ops stored].
  rewrite Ht. cbn [fst snd] in *. split_and!.
  - cbn [map]. rewrite Hmap. by destruct table.
  - constructor; [|done]. eexists. split; [reflexivity|]. by destruct table.
  - cbn [List.filter answered].
    destruct (chunk_insert table _); unfold len in *; cbn [length]; lia.
Qed.


(** [store_document] never hands on a failure of the chunk storage
    and never sets the status of the queue entry to [failed]: a
    processed document has chunks, and a chunk whose insert fails is
    skipped. *)
Theorem store_document_never_marks_failed (account_id : string)
    (file_content : list Byte.byte) (mime_type filename kb_type : string)
    (thread_id agent_id : option string) (chunk_size overlap : Z) :
  match store_document extractor fallback utcnow queue_insert chunk_insert
          account_id file_content mime_type filename kb_type thread_id
          agent_id chunk_size overlap with
  | Some (ops, r) =>
      (forall error, r <> StoreStorageFailed error)
      /\ Forall (fun op => marks_failed op = false) ops
  | None => False
  end.
Proof.
  unfold store_document.
  destruct (process_document_cases file_content mime_type filename chunk_size
              overlap) as [[Hs ->]|(Hs & y & c & chunks & _ & _ & ->)].
  { by split. }
  cbn [_create_processing_queue_entry].
  destruct (queue_insert _) as [| |job]; try (split; [done|by repeat constructor]).
  unfold _store_document_chunks. cbn [result_chunks].
  destruct (table_of kb_type) as [table|] eqn:Ht.
  - pose proof (store_chunks_known account_id thread_id agent_id kb_type
                  filename job (len (c :: chunks)) 0 1 (c :: chunks) table Ht)
      as (_ & Hall & _).
    destruct (store_chunks _ _ _ _ _ _ _ _ _ _ _ (c :: chunks)) as [ops stored].
    split; [done|]. constructor; [done|]. apply Forall_app. split.
    + eapply Forall_impl; [exact Hall|]. by intros op (d & -> & _).
    + by repeat constructor.
  - rewrite store_chunks_unknown by done. split; [done|by repeat constructor].
Qed.

(** What a success of [store_document] means. The queue entry was
    inserted and is set to [completed]; between the two there is one
    insert for each chunk of the cleaned text, in order and with the
    text of the chunk, each an active [file_upload] entry of the
    account with the filename, when the knowledge-base type is one of
    the three, and no insert at all when it is not;
    [chunks_stored] counts the inserts that the store answered with a
    row, so it can be anything from 0 to [total_chunks]. *)
Theorem store_document_stored (account_id : string)
    (file_content : list Byte.byte) (mime_type filename kb_type : string)
    (thread_id agent_id : option string) (chunk_size overlap : Z) :
  match store_document extractor fallback utcnow queue_insert chunk_insert
          account_id file_content mime_type filename kb_type thread_id
          agent_id chunk_size overlap with
  | Some (ops, Stored job_id chunks_stored total_chunks _ _ _ _) =>
      1 <= total_chunks /\ 0 <= chunks_stored <= total_chunks
      /\ exists d inserts completed_at cleaned,
           ops = InsertQueue d :: inserts
                 ++ [UpdateQueue job_id "completed"
                       (Some ("Successfully stored " +:+ pretty chunks_stored
                              +:+ " chunks"))
                       completed_at]
           /\ queue_insert d = Inserted job_id
           /\ chunks_stored = len (List.filter (answered chunk_insert) inserts)
           /\ _clean_text
                (extract_text extractor fallback file_content mime_type filename)
              = Some cleaned
           /\ total_chunks = len (_chunk_text cleaned chunk_size overlap)
           /\ match table_of kb_type with
              | Some table =>
                  map inserted_content inserts
                  = map (fun c => Some (chunk_text_of c))
                      (_chunk_text cleaned chunk_size overlap)
                  /\ Forall (is_upload_of account_id filename job_id table)
                       inserts
              | None => inserts = []
              end
  | _ => True
  end.
Proof.
  unfold store_document.
  destruct (process_document_cases file_content mime_type filename chunk_size
              overlap) as [[Hs ->]|(Hs & y & c & chunks & Hy & Hc & ->)];
    [done|].
  cbn [_create_processing_queue_entry].
  destruct (queue_insert _) as [| |job] eqn:Hq; try done.
  unfold _store_document_chunks. cbn [result_chunks].
  assert (Hpos : 1 <= len (c :: chunks)) by (unfold len; cbn [length]; lia).
  destruct (table_of kb_type) as [table|] eqn:Ht.
  - pose proof (store_chunks_known account_id thread_id agent_id kb_type
                  filename job (len (c :: chunks)) 0 1 (c :: chunks) table Ht)
      as (Hmap & Hall & Hlen).
    destruct (store_chunks _ _ _ _ _ _ _ _ _ _ _ (c :: chunks)) as [ops stored].
    cbn [fst snd] in *.
    assert (Hops : len ops = len (c :: chunks)).
    { apply (f_equal length) in Hmap. rewrite !length_map in Hmap.
      unfold len. by rewrite Hmap. }
    pose proof (List.filter_length_le (answered chunk_insert) ops) as Hle.
    split; [done|]. split; [unfold len in *; lia|].
    eexists _, ops, _, y. rewrite Hc.
    split_and!; try done.
  - rewrite store_chunks_unknown by done.
    split; [done|]. split; [unfold len in *; cbn [length] in *; lia|].
    eexists _, [], _, y. rewrite Hc. split_and!; done.
Qed.


End StoreDocumentExtras.

(** ** The properties on small inputs *)

Section ExtraExamples.
Import Py DocumentProcessor VectorService DocumentStorage Api Vocabulary.

Lemma search_returns_every_hit_witness :
  len (List.filter
         (reaches _calculate_cosine_similarity sample_query 0.5%float)
         sample_rows) <= 5
  /\ map scored_row
       (search_knowledge_base _calculate_cosine_similarity (Some sample_query)
          (Some sample_rows) 0.5%float 5)
     ≡ₚ List.filter
          (reaches _calculate_cosine_similarity sample_query 0.5%float)
          sample_rows.
Proof.
  split; [by vm_compute|].
  apply (search_returns_every_hit _calculate_cosine_similarity 3%float
           [4%float] sample_rows 0.5%float 5).
  by vm_compute.
Defined.

Lemma search_skips_other_dimensions_witness :
  PrimFloat.ltb 0 0.5 = true
  /\ Forall (fun r => forall e, row_embedding r = Some e ->
                        length e <> length sample_query)
       [Row 1 (Some [1%float])]
  /\ search_knowledge_base _calculate_cosine_similarity (Some sample_query)
       (Some [Row 1 (Some [1%float])]) 0.5%float 5 = [].
Proof.
  assert (Hrows : Forall (fun r => forall e, row_embedding r = Some e ->
                                     length e <> length sample_query)
                    [Row 1 (Some [1%float])]).
  { repeat constructor. intros e [= <-]. cbn. lia. }
  split; [reflexivity|]. split; [exact Hrows|].
  apply (search_skips_other_dimensions sample_query [Row 1 (Some [1%float])]
           0.5%float 5); [reflexivity|exact Hrows].
Defined.

Lemma chunk_text_greedy_witness :
  exists p c,
    _chunk_text (lit "aaaa bbbb cccc") 10 1 !! 0%nat = Some p
    /\ _chunk_text (lit "aaaa bbbb cccc") 10 1 !! 1%nat = Some c
    /\ exists w,
         split (lit "aaaa bbbb cccc") !! Z.to_nat (end_word p + 1) = Some w
         /\ size p + 1 + (len w + 1) > 10.
Proof.
  eexists _, _. split; [reflexivity|]. split; [reflexivity|].
  eapply (chunk_text_greedy (lit "aaaa bbbb cccc") 10 1 0%nat); reflexivity.
Defined.

Lemma chunk_document_returns_witness :
  0 <= 200 /\ 200 + 98 < 1000
  /\ exists chunks,
       chunk_document (S (length stalling_content)) stalling_content 1000 200
       = Returned chunks.
Proof.
  split; [lia|]. split; [lia|].
  apply (chunk_document_returns stalling_content 1000 200); lia.
Defined.

Lemma chunk_document_chunk_size_witness :
  0 <= 150
  /\ match chunk_document 5 stalling_content 150 20 with
     | Returned chunks => Forall (fun c => len c <= 150) chunks
     | _ => True
     end.
Proof.
  split; [lia|].
  apply (chunk_document_chunk_size 5 stalling_content 150 20). lia.
Defined.


Lemma search_documents_one_word_witness :
  split (ascii_lower (lit "Cat")) = [ascii_lower (lit "Cat")]
  /\ match search_documents ascii_lower sample_chunks [] [] (lit "Cat")
             "all" None None 1 with
     | Some r =>
         map scored_document (top_results r)
         = slice_to 1
             (List.filter (mentions ascii_lower (lit "Cat"))
                (searched_chunks "all" None None sample_chunks [] []))
         /\ Forall (fun x => relevance_score x = 3) (top_results r)
     | None => True
     end.
Proof.
  split; [reflexivity|].
  apply (search_documents_one_word ascii_lower sample_chunks [] []
           (lit "Cat") "all" None None 1).
  reflexivity.
Defined.

Lemma upload_document_uses_extractor_witness :
  upload_document true (Some "text/plain"%string) 10 = Proceeds
  /\ exists t,
       Some "text/plain"%string = Some t /\ is_format_supported t = true
       /\ 10 <= 50 * 1024 * 1024
       /\ forall file_content filename,
            extract_text (fun _ _ _ => []) (fun _ _ => []) file_content t
              filename
            = [].
Proof.
  split; [reflexivity|].
  apply (upload_document_uses_extractor (fun _ _ _ => []) (fun _ _ => [])
           true (Some "text/plain"%string) 10).
  reflexivity.
Defined.


End ExtraExamples.
